(** * simple-salesforce, Bulk API v2: chunker, result merger, job scheduler

    A shallow embedding of [simple_salesforce/util.py] ([exception_handler],
    [call_salesforce], [json_list_to_file], [split_csv]) and of
    [simple_salesforce/bulk_v2.py] (class [SFBulk_v2Type]) together with
    the properties the specification states about them.

    Conventions.
    - A Python [str] is a list of Unicode code points ([N]).
    - Code that talks to the remote service runs in a small monad that
      threads the trace of effects (HTTP exchanges, sleeps, file writes)
      and stops at the first raised exception.
    - A generator is a finite lazy sequence of yielded values ending in a
      normal return or in a raised exception. *)

From Stdlib Require Import ZArith List Lia String Ascii QArith DecimalString.
From stdpp Require Import base list option numbers.
Close Scope Q_scope.
Open Scope Z_scope.

(** ** Python strings *)

Definition str := list N.
Definition row := list str.

(** [u "abc"] is the Python literal ['abc']. *)
Definition u (s : string) : str := map N_of_ascii (list_ascii_of_string s).

Definition LF : N := 10.
Definition CR : N := 13.
Definition DQUOTE : N := 34.
Definition COMMA : N := 44.

(** [sep.join(l)] *)
Fixpoint join (sep : str) (l : list str) : str :=
  match l with
  | [] => []
  | [x] => x
  | x :: l' => x ++ sep ++ join sep l'
  end.

(** The line boundaries of [str.splitlines]: \n \r \v \f \x1c \x1d \x1e
    \x85     (and \r\n, taken as one boundary). *)
Definition is_linebreak (c : N) : bool :=
  match c with
  | 10 | 11 | 12 | 13 | 28 | 29 | 30 | 133 | 8232 | 8233 => true
  | _ => false
  end%N.

(** [splitlines_from cur s]: [cur] holds, reversed, the characters of the
    line being scanned.  A line is emitted at each boundary; what is left
    at the end of the text is a line only when it is not empty. *)
Fixpoint splitlines_from (cur : str) (s : str) : list str :=
  match s with
  | [] => match cur with [] => [] | _ => [rev cur] end
  | c :: s' =>
      if is_linebreak c then
        rev cur ::
          match s' with
          | c' :: s'' =>
              if (c =? CR)%N && (c' =? LF)%N then splitlines_from [] s''
              else splitlines_from [] s'
          | [] => splitlines_from [] s'
          end
      else splitlines_from (c :: cur) s'
  end.

(** [s.splitlines()] *)
Definition splitlines (s : str) : list str := splitlines_from [] s.

(** [s.split('\n')]: the records of a text whose separator is LF. *)
Fixpoint split_lf_from (cur : str) (s : str) : list str :=
  match s with
  | [] => [rev cur]
  | c :: s' =>
      if (c =? LF)%N then rev cur :: split_lf_from [] s'
      else split_lf_from (c :: cur) s'
  end.

Definition split_lf (s : str) : list str := split_lf_from [] s.

(** ** Exceptions *)

(** The exception classes of [simple_salesforce.exceptions] that
    [exception_handler] chooses from. *)
Inductive sf_error_class :=
| SalesforceMoreThanOneRecord
| SalesforceMalformedRequest
| SalesforceExpiredSession
| SalesforceRefusedRequest
| SalesforceResourceNotFound
| SalesforceGeneralError.

(** JSON values as far as the code looks at them. *)
Inductive json_value :=
| JString (s : str)
| JInt (z : Z)
| JBool (b : bool)
| JNull.

Definition json_object := list (str * json_value).

(** [response_content] of [exception_handler]: the parsed JSON body when
    the body parses, the raw text otherwise. *)
Inductive response_content :=
| ContentJson (j : json_object)
| ContentText (t : str).

(** [StopIteration] is not among them: an exhausted iterator is the
    [GenReturn] of the generators below, and a [StopIteration] that
    escapes a generator's body reaches the caller as [RuntimeError]. *)
Inductive exn :=
| RuntimeError (msg : str)
| UnboundLocalError (name : str)
| IndexError
| KeyError (key : str)
| ValueError
| CsvError
| JSONDecodeError
| UnicodeDecodeError
| UnicodeEncodeError
| OSError (errno : Z)
| SalesforceError (cls : sf_error_class) (url : str) (status : Z)
    (name : str) (content : response_content).

(** ** Generators *)

Inductive gen (A : Type) :=
| Yield (a : A) (k : gen A)
| GenReturn
| GenRaise (e : exn).
Arguments Yield {A} a k.
Arguments GenReturn {A}.
Arguments GenRaise {A} e.

(** The values a generator yields, in order, and how it ends. *)
Fixpoint yielded {A} (g : gen A) : list A :=
  match g with
  | Yield a k => a :: yielded k
  | _ => []
  end.

Fixpoint gen_end {A} (g : gen A) : option exn :=
  match g with
  | Yield _ k => gen_end k
  | GenReturn => None
  | GenRaise e => Some e
  end.

(** ** The [csv] and [io] modules, as far as the code uses them

    The dialect is the one the code passes everywhere: the comma as
    delimiter, the double quote as quotechar, [QUOTE_MINIMAL], with the
    defaults [doublequote=True], no escapechar, [lineterminator='\r\n']
    and [strict=False].  What [print] writes and what [default_timer]
    returns are left out: nothing the code returns depends on them. *)

(** [csv.writer]: a character that forces the field to be quoted. *)
Definition needs_quotes (c : N) : bool :=
  ((c =? COMMA) || (c =? DQUOTE) || (c =? CR) || (c =? LF))%N.

(** The field's characters, the quote character doubled. *)
Definition join_append_data (field : str) : str :=
  flat_map (fun c => if (c =? DQUOTE)%N then [DQUOTE; DQUOTE] else [c]) field.

Definition join_append (field : str) : str :=
  if existsb needs_quotes field
  then DQUOTE :: join_append_data field ++ [DQUOTE]
  else field.

(** The text [writer.writerow(r)] hands to the file's [write]: the fields
    joined by the delimiter (a row whose only field is empty is written
    as a quoted empty field), then the line terminator. *)
Definition csv_record (r : row) : str :=
  match r with
  | [[]] => [DQUOTE; DQUOTE]
  | _ => join [COMMA] (map join_append r)
  end ++ [CR; LF].

(** [io.StringIO(newline=None)]: on write, \r\n and \r become \n. *)
Fixpoint translate_newlines (s : str) : str :=
  match s with
  | [] => []
  | c :: s' =>
      if (c =? CR)%N then
        LF :: match s' with
              | c' :: s'' =>
                  if (c' =? LF)%N then translate_newlines s''
                  else translate_newlines s'
              | [] => []
              end
      else c :: translate_newlines s'
  end.

(** The buffer of a [StringIO(newline=None)] is its text. *)
Definition StringIO := str.

Definition StringIO_write (output : StringIO) (s : str) : StringIO :=
  output ++ translate_newlines s.

Definition getvalue (output : StringIO) : str := output.

(** [writer.writerow(r)] on a writer over [output]. *)
Definition writerow (output : StringIO) (r : row) : StringIO :=
  StringIO_write output (csv_record r).

(** Iterating over the buffer from position 0: the lines, each with its
    terminating \n (the last one may lack it). *)
Fixpoint readlines_from (cur : str) (s : str) : list str :=
  match s with
  | [] => match cur with [] => [] | _ => [rev cur] end
  | c :: s' =>
      if (c =? LF)%N then rev (c :: cur) :: readlines_from [] s'
      else readlines_from (c :: cur) s'
  end.

Definition readlines (f : StringIO) : list str := readlines_from [] f.

(** [csv.reader]: the parser of [_csv.c]. *)
Inductive ParserState :=
| START_RECORD | START_FIELD | IN_FIELD | IN_QUOTED_FIELD
| QUOTE_IN_QUOTED_FIELD | EAT_CRNL.

Record ReaderObj := mkReader {
  state : ParserState;
  field : str;          (* the field being read, reversed *)
  fields : list str     (* the fields read so far, reversed *)
}.

Definition parse_reset : ReaderObj := mkReader START_RECORD [] [].

Definition set_state (st : ParserState) (r : ReaderObj) : ReaderObj :=
  mkReader st (field r) (fields r).

Definition parse_save_field (r : ReaderObj) : ReaderObj :=
  mkReader (state r) [] (rev (field r) :: fields r).

Definition field_limit : Z := 131072.

Definition parse_add_char (r : ReaderObj) (c : N) : ReaderObj + exn :=
  if field_limit <=? Z.of_nat (length (field r)) then inr CsvError
  else inl (mkReader (state r) (c :: field r) (fields r)).

Definition is_newline (c : N) : bool := ((c =? LF) || (c =? CR))%N.

(** One step of the parser; [None] is the end-of-line mark fed after the
    last character of each line. *)
Definition parse_process_char (r : ReaderObj) (c : option N)
  : ReaderObj + exn :=
  let start_field (r : ReaderObj) :=
    match c with
    | None => inl (set_state START_RECORD (parse_save_field r))
    | Some c =>
        if is_newline c then inl (set_state EAT_CRNL (parse_save_field r))
        else if (c =? DQUOTE)%N then inl (set_state IN_QUOTED_FIELD r)
        else if (c =? COMMA)%N then inl (parse_save_field r)
        else match parse_add_char r c with
             | inl r' => inl (set_state IN_FIELD r')
             | inr e => inr e
             end
    end in
  match state r with
  | START_RECORD =>
      match c with
      | None => inl r
      | Some c' =>
          if is_newline c' then inl (set_state EAT_CRNL r)
          else start_field (set_state START_FIELD r)
      end
  | START_FIELD => start_field r
  | IN_FIELD =>
      match c with
      | None => inl (set_state START_RECORD (parse_save_field r))
      | Some c =>
          if is_newline c then inl (set_state EAT_CRNL (parse_save_field r))
          else if (c =? COMMA)%N
               then inl (set_state START_FIELD (parse_save_field r))
          else parse_add_char r c
      end
  | IN_QUOTED_FIELD =>
      match c with
      | None => inl r
      | Some c =>
          if (c =? DQUOTE)%N then inl (set_state QUOTE_IN_QUOTED_FIELD r)
          else parse_add_char r c
      end
  | QUOTE_IN_QUOTED_FIELD =>
      match c with
      | None => inl (set_state START_RECORD (parse_save_field r))
      | Some c =>
          if (c =? DQUOTE)%N then
            match parse_add_char r c with
            | inl r' => inl (set_state IN_QUOTED_FIELD r')
            | inr e => inr e
            end
          else if (c =? COMMA)%N
               then inl (set_state START_FIELD (parse_save_field r))
          else if is_newline c
               then inl (set_state EAT_CRNL (parse_save_field r))
          else match parse_add_char r c with
               | inl r' => inl (set_state IN_FIELD r')
               | inr e => inr e
               end
      end
  | EAT_CRNL =>
      match c with
      | None => inl (set_state START_RECORD r)
      | Some c => if is_newline c then inl r else inr CsvError
      end
  end.

(** The characters of one line, then the end-of-line mark. *)
Fixpoint parse_line (r : ReaderObj) (line : str) : ReaderObj + exn :=
  match line with
  | [] => parse_process_char r None
  | c :: line' =>
      match parse_process_char r (Some c) with
      | inl r' => parse_line r' line'
      | inr e => inr e
      end
  end.

Definition is_START_RECORD (st : ParserState) : bool :=
  match st with START_RECORD => true | _ => false end.

Definition is_IN_QUOTED_FIELD (st : ParserState) : bool :=
  match st with IN_QUOTED_FIELD => true | _ => false end.

Definition nonempty {A} (l : list A) : bool :=
  match l with [] => false | _ => true end.

(** [csv.reader(lines)] as the iterator of its rows: each [next] feeds
    lines until the parser is back at the start of a record. *)
Fixpoint reader_from (r : ReaderObj) (lines : list str) : gen row :=
  match lines with
  | [] =>
      if nonempty (field r) || is_IN_QUOTED_FIELD (state r)
      then Yield (rev (fields (parse_save_field r))) GenReturn
      else GenReturn
  | line :: lines' =>
      match parse_line r line with
      | inr e => GenRaise e
      | inl r' =>
          if is_START_RECORD (state r')
          then Yield (rev (fields r')) (reader_from parse_reset lines')
          else reader_from r' lines'
      end
  end.

Definition csv_reader (f : StringIO) : gen row :=
  reader_from parse_reset (readlines f).


(** ** util.py *)

(** Python dicts with string keys, in insertion order. *)
Fixpoint dict_get {V} (key : str) (d : list (str * V)) : option V :=
  match d with
  | [] => None
  | (k, v) :: d' => if decide (k = key) then Some v else dict_get key d'
  end.

Definition keys {V} (d : list (str * V)) : list str := map fst d.

(** [d[key]] *)
Definition getitem {V} (d : list (str * V)) (key : str) : V + exn :=
  match dict_get key d with
  | Some v => inl v
  | None => inr (KeyError key)
  end.

(** [str(z)] for an integer. *)
Definition str_of_Z (z : Z) : str :=
  u (DecimalString.NilZero.string_of_int (Z.to_int z)).

(** [str(v)], which is also what [format] substitutes for a value. *)
Definition py_str (v : json_value) : str :=
  match v with
  | JString s => s
  | JInt z => str_of_Z z
  | JBool true => u "True"
  | JBool false => u "False"
  | JNull => u "None"
  end.

(** The text [csv.writer] writes for a value: [None] is the empty field. *)
Definition csv_str (v : json_value) : str :=
  match v with
  | JNull => []
  | _ => py_str v
  end.

(** A record handed to the bulk operations: a dict of scalar values. *)
Definition record := list (str * json_value).

(** [csv.DictWriter._dict_to_list] with [extrasaction='raise'] and
    [restval=''] (the defaults). *)
Definition _dict_to_list (fieldnames : list str) (rowdict : record)
  : row + exn :=
  if forallb (fun k => bool_decide (k ∈ fieldnames)) (keys rowdict)
  then inl (map (fun key => match dict_get key rowdict with
                            | Some v => csv_str v
                            | None => []
                            end) fieldnames)
  else inr ValueError.

(** The [for row in data] loop of [json_list_to_file] once the writer
    exists: [writer.writerow(row)] for every row. *)
Fixpoint write_rows (fieldnames : list str) (output : StringIO)
    (data : list record) : StringIO + exn :=
  match data with
  | [] => inl output
  | r :: data' =>
      match _dict_to_list fieldnames r with
      | inl l => write_rows fieldnames (writerow output l) data'
      | inr e => inr e
      end
  end.

(** [json_list_to_file(data)]: the header is written when the first row
    is seen; for an empty list nothing is written at all. *)
Definition json_list_to_file (data : list record) : StringIO + exn :=
  match data with
  | [] => inl []
  | first :: _ =>
      let fieldnames := keys first in
      write_rows fieldnames (writerow [] fieldnames) data
  end.

(** [int(q)]: truncation towards zero. *)
Definition py_int (q : Q) : Z := Z.quot (Qnum q) (Zpos (Qden q)).

(** [max_bytes = int(split_size * 1024 * 1024)].  [split_size] is a
    number; for a float the two products by 1024 are exact, so a rational
    carries it. *)
Definition max_bytes_of (split_size : Q) : Z :=
  py_int (split_size * inject_Z 1024 * inject_Z 1024)%Q.

(** [sum([len(item)+3 for item in line]) + 1] *)
Definition row_cost (line : row) : Z :=
  fold_right Z.add 0 (map (fun item => Z.of_nat (length item) + 3) line) + 1.

(** The local variables of [split_csv] that are assigned inside the outer
    loop and read after it. *)
Record locals := mkLocals {
  output : StringIO;
  n : Z;
  log_rows : Z
}.

Section split_csv_loops.
Variable header : row.
Variable max_bytes : Z.

(** The statements after the outer loop: [default_timer()-start], the
    [print], and the last [yield output.getvalue()].  [start], [n],
    [log_rows] and [output] are bound only by the body of the outer
    loop. *)
Definition after_loops (last : option locals) : gen str :=
  match last with
  | None => GenRaise (UnboundLocalError (u "start"))
  | Some l => Yield (getvalue (output l)) GenReturn
  end.

(** [for line in chain([line], data)]: [line] is the row in hand,
    [data] the shared iterator after it.  [next_chunk] is the rest of
    the outer loop, entered after the [break] and also when [data] is
    exhausted. *)
Definition chunk_loop (next_chunk : option locals -> gen row -> gen str)
  : locals -> row -> gen row -> gen str :=
  fix inner (l : locals) (line : row) (data : gen row) {struct data} :=
    let l := mkLocals (writerow (output l) line)
                      (n l + row_cost line)
                      (log_rows l + 1) in
    if n l >=? max_bytes
    then Yield (getvalue (output l)) (next_chunk (Some l) data)
    else match data with
         | Yield line' data' => inner l line' data'
         | GenReturn => next_chunk (Some l) data
         | GenRaise e => GenRaise e
         end.

(** [for line in data]: a fresh buffer with the header, then the inner
    loop. *)
Fixpoint split_loop (last : option locals) (data : gen row) {struct data}
  : gen str :=
  match data with
  | Yield line data' =>
      chunk_loop split_loop (mkLocals (writerow [] header) 0 0) line data'
  | GenReturn => after_loops last
  | GenRaise e => GenRaise e
  end.
End split_csv_loops.

(** The body of [split_csv] once [max_bytes] is computed.
    [header = next(data)] on an exhausted iterator raises [StopIteration]
    inside the generator, which the caller sees as [RuntimeError]
    (PEP 479, Python 3.7 and later). *)
Definition split_csv_bytes (data : gen row) (max_bytes : Z) : gen str :=
  match data with
  | Yield header data' => split_loop header max_bytes None data'
  | GenReturn => GenRaise (RuntimeError (u "generator raised StopIteration"))
  | GenRaise e => GenRaise e
  end.

Definition split_csv (data : gen row) (split_size : Q) : gen str :=
  split_csv_bytes data (max_bytes_of split_size).

(** A list as an iterator. *)
Fixpoint iter {A} (l : list A) : gen A :=
  match l with
  | [] => GenReturn
  | a :: l' => Yield a (iter l')
  end.

(** ** Effects: the remote service, the clock, the file system *)

Inductive http_method := GET | POST | PUT | PATCH.

(** The [data] keyword of [session.request].  [json.dumps(payload)] is
    kept as the payload it serialises. *)
Inductive body :=
| NoData
| JsonData (payload : json_object)
| TextData (text : str).

Record request := mkRequest {
  req_method : http_method;
  req_url : str;
  req_headers : list (str * str);
  req_data : body
}.

(** A [requests] response: [json] is what [result.json()] returns ([None]
    when it raises), [content_utf8] what [result.content.decode('utf-8')]
    returns ([None] when it raises). *)
Record response := mkResponse {
  status_code : Z;
  resp_url : str;
  text : str;
  content_utf8 : option str;
  json : option json_object
}.

Inductive event :=
| Request (req : request) (resp : response)
| Sleep (seconds : Z)
| WriteFile (name : str) (contents : str).

Definition trace := list event.

(** How a computation ends: it returns, it raises, or it is still in the
    polling loop when the number of passes looked at is used up. *)
Inductive result (A : Type) :=
| Ok (a : A)
| Raise (e : exn)
| Pending.
Arguments Ok {A} a.
Arguments Raise {A} e.
Arguments Pending {A}.

(** A computation extends the trace of what happened so far. *)
Definition M (A : Type) : Type := trace -> trace * result A.

Definition ret {A} (a : A) : M A := fun t => (t, Ok a).

Definition raise {A} (e : exn) : M A := fun t => (t, Raise e).

Definition pending {A} : M A := fun t => (t, Pending).

Definition bind {A B} (m : M A) (k : A -> M B) : M B :=
  fun t =>
    match m t with
    | (t', Ok a) => k a t'
    | (t', Raise e) => (t', Raise e)
    | (t', Pending) => (t', Pending)
    end.

Notation "x <- m ;; k" := (bind m (fun x => k))
  (at level 100, m at next level, right associativity).
Notation "m ;;; k" := (bind m (fun _ => k))
  (at level 100, right associativity).

(** A pure step that may raise. *)
Definition lift {A} (r : A + exn) : M A :=
  match r with
  | inl a => ret a
  | inr e => raise e
  end.

Definition emit (e : event) : M unit := fun t => (t ++ [e], Ok tt).

(** [sleep(wait)] *)
Definition sleep (wait : Z) : M unit := emit (Sleep wait).

(** [with open(name, 'w') as f: f.write(contents)].  Opening the file
    or writing to it may fail: [OSError] when the file cannot be opened
    or written, [UnicodeEncodeError] when the encoding of the file, which
    is the one of the locale, cannot encode the text.  [file_error] is
    the file system: given what happened so far, the file name and the
    text, it tells the exception that is raised, if any.  The trace
    records the writes that went through. *)
Definition write_file (file_error : trace -> str -> str -> option exn)
    (name contents : str) : M unit :=
  fun t =>
    match file_error t name contents with
    | Some e => (t, Raise e)
    | None => (t ++ [WriteFile name contents], Ok tt)
    end.

(** [exc_map.get(result.status_code, SalesforceGeneralError)] *)
Definition exc_map (status : Z) : sf_error_class :=
  match status with
  | 300 => SalesforceMoreThanOneRecord
  | 400 => SalesforceMalformedRequest
  | 401 => SalesforceExpiredSession
  | 403 => SalesforceRefusedRequest
  | 404 => SalesforceResourceNotFound
  | _ => SalesforceGeneralError
  end.

(** [exception_handler(result, name)]: the exception it raises. *)
Definition exception_handler (result : response) (name : str) : exn :=
  let response_content :=
    match json result with
    | Some j => ContentJson j
    | None => ContentText (text result)
    end in
  SalesforceError (exc_map (status_code result)) (resp_url result)
    (status_code result) name response_content.

(** [d[key] = v] *)
Fixpoint dict_set {V} (d : list (str * V)) (key : str) (v : V)
  : list (str * V) :=
  match d with
  | [] => [(key, v)]
  | (k, v') :: d' =>
      if decide (k = key) then (k, v) :: d' else (k, v') :: dict_set d' key v
  end.

(** The job states after which the results are fetched. *)
Definition terminal_states : list json_value :=
  [JString (u "JobComplete"); JString (u "Failed"); JString (u "Aborted")].

Global Instance json_value_eq_dec : EqDecision json_value.
Proof. solve_decision. Defined.

(** The [empty_columns] of [_get_job_results]: a line feed, then two
    quoted empty fields, each followed by the delimiter. *)
Definition empty_columns : str :=
  LF :: [DQUOTE; DQUOTE; COMMA; DQUOTE; DQUOTE; COMMA].

(** The last statements of [_get_job_results], from
    [combined_result = result_success.splitlines()[0]] on, applied to the
    three decoded bodies. *)
Definition combine_results
    (result_success result_failed result_unprocessed : str) : str + exn :=
  match splitlines result_success with
  | [] => inr IndexError
  | first :: _ =>
      let combined_result := first in
      let combined_result :=
        if (1 <? length (splitlines result_success))%nat
        then combined_result ++ [LF] ++ join [LF] (drop 1 (splitlines result_success))
        else combined_result in
      let combined_result :=
        if (1 <? length (splitlines result_failed))%nat
        then combined_result ++ [LF] ++ join [LF] (drop 1 (splitlines result_failed))
        else combined_result in
      let combined_result :=
        if (1 <? length (splitlines result_unprocessed))%nat
        then combined_result ++ empty_columns
               ++ join empty_columns (drop 1 (splitlines result_unprocessed))
        else combined_result in
      inl combined_result
  end.

(** What [_bulk_operation] accepts as [data]: a list of records, or an
    iterator of rows such as a [csv.reader]. *)
Inductive bulk_data :=
| DataList (records : list record)
| DataReader (rows : gen row).

(** ** bulk_v2.py: class SFBulk_v2Type *)

Record SFBulk_v2Type := mkSFBulk_v2Type {
  object_name : str;
  bulk_url : str;
  headers : list (str * str)
}.

Section SFBulk_v2Type.
(** The session and the service behind it: the response to a request,
    given everything that happened before it. *)
Variable respond : trace -> request -> response.
(** The file system the batches are written to. *)
Variable file_error : trace -> str -> str -> option exn.
Variable self : SFBulk_v2Type.

(** [call_salesforce(url, method, session, headers, data=...)].  No
    caller passes [additional_headers], so [headers.update] adds
    nothing. *)
Definition call_salesforce (url : str) (method : http_method)
    (headers : list (str * str)) (data : body) : M response :=
  fun t =>
    let req := mkRequest method url headers data in
    let result := respond t req in
    let t' := t ++ [Request req result] in
    if status_code result >=? 300
    then (t', Raise (exception_handler result []))
    else (t', Ok result).

(** [result.json(object_pairs_hook=OrderedDict)] *)
Definition result_json (result : response) : M json_object :=
  match json result with
  | Some j => ret j
  | None => raise JSONDecodeError
  end.

(** [result.content.decode('utf-8')] *)
Definition content_decode (result : response) : M str :=
  match content_utf8 result with
  | Some s => ret s
  | None => raise UnicodeDecodeError
  end.

Definition _create_job (operation object_name : str)
    (external_id_field : option str) : M json_object :=
  let payload :=
    [(u "operation", JString operation);
     (u "object", JString object_name);
     (u "contentType", JString (u "CSV"));
     (u "lineEnding", JString (u "LF"))] in
  let payload :=
    if decide (operation = u "upsert")
    then dict_set payload (u "externalIdFieldName")
           (match external_id_field with
            | Some f => JString f
            | None => JNull
            end)
    else payload in
  let url := bulk_url self in
  result <- call_salesforce url POST (headers self) (JsonData payload) ;;
  result_json result.

Definition _add_batch (job_id : json_value) (data : str) (operation : str)
  : M Z :=
  let url := bulk_url self ++ py_str job_id ++ u "/batches/" in
  let headers := dict_set (headers self) (u "Content-Type") (u "text/csv") in
  result <- call_salesforce url PUT headers (TextData data) ;;
  ret (status_code result).

Definition _close_job (job_id : json_value) : M json_object :=
  let payload := [(u "state", JString (u "UploadComplete"))] in
  let url := bulk_url self ++ py_str job_id in
  result <- call_salesforce url PATCH (headers self) (JsonData payload) ;;
  result_json result.

Definition _get_job (job_id : json_value) : M json_object :=
  let url := bulk_url self ++ py_str job_id in
  result <- call_salesforce url GET (headers self) NoData ;;
  result_json result.

Definition _get_job_results (job_id : json_value) : M str :=
  let url := bulk_url self ++ py_str job_id ++ u "/successfulResults/" in
  result <- call_salesforce url GET (headers self) NoData ;;
  result_success <- content_decode result ;;
  let url := bulk_url self ++ py_str job_id ++ u "/failedResults/" in
  result <- call_salesforce url GET (headers self) NoData ;;
  result_failed <- content_decode result ;;
  let url := bulk_url self ++ py_str job_id ++ u "/unprocessedrecords/" in
  result <- call_salesforce url GET (headers self) NoData ;;
  result_unprocessed <- content_decode result ;;
  lift (combine_results result_success result_failed result_unprocessed).

(** The first loop of [_bulk_operation]:
    [for batch in split_csv(data, 100)]. *)
Fixpoint submit_batches (object_name operation : str)
    (external_id_field : option str) (batches : gen str)
    (job_ids : list json_value) : M (list json_value) :=
  match batches with
  | Yield batch batches' =>
      write_file file_error (u "batch.csv") batch ;;;
      job <- _create_job operation object_name external_id_field ;;
      job_id <- lift (getitem job (u "id")) ;;
      _add_batch job_id batch operation ;;;
      _close_job job_id ;;;
      submit_batches object_name operation external_id_field batches'
        (job_ids ++ [job_id])
  | GenReturn => ret job_ids
  | GenRaise e => raise e
  end.

(** [for i, job in enumerate(job_ids)], from the iteration that reads
    index [i] on.  The list iterator reads [job_ids[i]] from the list as
    it is at that moment and stops when [i] is past its end;
    [job_ids.pop(i)] shortens the list under it.  [steps] bounds the
    iterations left: at most [len(job_ids) - i]. *)
Fixpoint poll_pass (steps : nat) (i : nat) (job_ids : list json_value)
    (results : list str) : M (list json_value * list str) :=
  match job_ids !! i, steps with
  | Some job, S steps' =>
      j <- _get_job job ;;
      job_state <- lift (getitem j (u "state")) ;;
      if negb (bool_decide (job_state ∈ terminal_states))
      then poll_pass steps' (S i) job_ids results
      else
        let job_ids := delete i job_ids in
        job_result <- _get_job_results job ;;
        let results := results ++ [job_result] in
        poll_pass steps' (S i) job_ids results
  | _, _ => ret (job_ids, results)
  end.

(** [while job_ids: for ...: ...; sleep(wait)], then
    [return "\n".join(results)].  [passes] is the number of passes of
    the [while] loop that are followed. *)
Fixpoint poll_jobs (passes : nat) (wait : Z) (job_ids : list json_value)
    (results : list str) : M str :=
  match job_ids with
  | [] => ret (join [LF] results)
  | _ :: _ =>
      match passes with
      | O => pending
      | S passes' =>
          st <- poll_pass (length job_ids) 0 job_ids results ;;
          sleep wait ;;;
          poll_jobs passes' wait (fst st) (snd st)
      end
  end.

Definition _bulk_operation (object_name operation : str) (data : bulk_data)
    (external_id_field : option str) (wait : Z) (passes : nat) : M str :=
  data <- match data with
          | DataList l =>
              file <- lift (json_list_to_file l) ;;
              ret (csv_reader file)
          | DataReader rows => ret rows
          end ;;
  job_ids <- submit_batches object_name operation external_id_field
               (split_csv data (inject_Z 100)) [] ;;
  poll_jobs passes wait job_ids [].

(** The public operations; [wait] keeps its default, 5.  ([delete] and
    [insert] carry an underscore here: the plain names are those of the
    list operations the model of [job_ids.pop(i)] uses.) *)
Definition delete_ (data : bulk_data) (passes : nat) : M str :=
  _bulk_operation (object_name self) (u "delete") data None 5 passes.

Definition insert_ (data : bulk_data) (passes : nat) : M str :=
  _bulk_operation (object_name self) (u "insert") data None 5 passes.

Definition upsert (data : bulk_data) (external_id_field : option str)
    (passes : nat) : M str :=
  _bulk_operation (object_name self) (u "upsert") data external_id_field
    5 passes.

Definition update (data : bulk_data) (passes : nat) : M str :=
  _bulk_operation (object_name self) (u "update") data None 5 passes.
End SFBulk_v2Type.

(** ** Notions used to state the properties *)

(** A line without any of the line boundaries of [splitlines]. *)
Definition no_break (l : str) : Prop :=
  Forall (fun c => is_linebreak c = false) l.

(** The six characters that [empty_columns] puts after its line feed: two
    quoted empty fields, each followed by the delimiter. *)
Definition quoted_empty_pair : str :=
  [DQUOTE; DQUOTE; COMMA; DQUOTE; DQUOTE; COMMA].

(** The lines of a merged body whose success partition is the header
    [hs] and the rows [srows]. *)
Definition merged_lines (hs : str) (srows : list str)
    (result_failed result_unprocessed : str) : list str :=
  hs :: srows ++ drop 1 (splitlines result_failed)
     ++ map (app quoted_empty_pair) (drop 1 (splitlines result_unprocessed)).

(** The buffer after the header and the rows [g] were written to it. *)
Definition written (header : row) (g : list row) : str :=
  fold_left writerow g (writerow [] header).

(** The reader with [extra] as the fields read before the ones it has. *)
Definition with_fields (extra : list str) (r : ReaderObj) : ReaderObj :=
  mkReader (state r) (field r) (fields r ++ extra).

Definition map_reader (f : ReaderObj -> ReaderObj) (x : ReaderObj + exn)
  : ReaderObj + exn :=
  match x with
  | inl r => inl (f r)
  | inr e => inr e
  end.

(** The request of one fetch of [_get_job_results]. *)
Definition results_request (self : SFBulk_v2Type) (job_id : json_value)
    (suffix : str) : request :=
  mkRequest GET (bulk_url self ++ py_str job_id ++ suffix) (headers self) NoData.

(** The three exchanges of [_get_job_results], started after [t]. *)
Definition results_exchanges (respond : trace -> request -> response)
    (self : SFBulk_v2Type) (job_id : json_value) (t : trace) : trace :=
  let q1 := results_request self job_id (u "/successfulResults/") in
  let q2 := results_request self job_id (u "/failedResults/") in
  let q3 := results_request self job_id (u "/unprocessedrecords/") in
  let e1 := Request q1 (respond t q1) in
  let e2 := Request q2 (respond (t ++ [e1]) q2) in
  let e3 := Request q3 (respond (t ++ [e1] ++ [e2]) q3) in
  [e1; e2; e3].

(** The service answers [q], sent after [t], with a status below 300 and
    the body [body]. *)
Definition answered (respond : trace -> request -> response) (t : trace)
    (q : request) (body : str) : Prop :=
  status_code (respond t q) < 300 /\ content_utf8 (respond t q) = Some body.

(** The service answers the three fetches for [job_id] after [t] with the
    bodies [s], [f] and [un]. *)
Definition fetches (respond : trace -> request -> response)
    (self : SFBulk_v2Type) (job_id : json_value) (t : trace)
    (s f un : str) : Prop :=
  let q1 := results_request self job_id (u "/successfulResults/") in
  let q2 := results_request self job_id (u "/failedResults/") in
  let q3 := results_request self job_id (u "/unprocessedrecords/") in
  let e1 := Request q1 (respond t q1) in
  let e2 := Request q2 (respond (t ++ [e1]) q2) in
  answered respond t q1 s /\
  answered respond (t ++ [e1]) q2 f /\
  answered respond (t ++ [e1] ++ [e2]) q3 un.

(** The payload [_create_job] sends. *)
Definition create_payload (operation object_name : str)
    (external_id_field : option str) : json_object :=
  let payload :=
    [(u "operation", JString operation);
     (u "object", JString object_name);
     (u "contentType", JString (u "CSV"));
     (u "lineEnding", JString (u "LF"))] in
  if decide (operation = u "upsert")
  then dict_set payload (u "externalIdFieldName")
         (match external_id_field with
          | Some f => JString f
          | None => JNull
          end)
  else payload.

Definition create_request (self : SFBulk_v2Type) (payload : json_object)
  : request :=
  mkRequest POST (bulk_url self) (headers self) (JsonData payload).

(** The payload of an upsert job created without an external id field. *)
Definition upsert_payload_without_id (self : SFBulk_v2Type) : json_object :=
  [(u "operation", JString (u "upsert"));
   (u "object", JString (object_name self));
   (u "contentType", JString (u "CSV"));
   (u "lineEnding", JString (u "LF"));
   (u "externalIdFieldName", JNull)].

(** The first chunk of a source, the empty text when it has none. *)
Definition first_chunk (rows : gen row) : str :=
  match split_csv rows (inject_Z 100) with
  | Yield chunk _ => chunk
  | _ => []
  end.

(** An exchange answered with a status of 300 or more. *)
Definition http_failed (e : event) : bool :=
  match e with
  | Request _ r => status_code r >=? 300
  | _ => false
  end.

(** No exchange of the trace was answered with a status of 300 or more. *)
Definition clean (t : trace) : Prop :=
  Forall (fun e => http_failed e = false) t.

(** What a computation may add to the trace: events without a failed
    exchange, or such events followed by one failed exchange, which is
    then the last event and decides the exception that is raised. *)
Inductive extension_ok {A : Type} : trace -> result A -> Prop :=
| extension_clean ext res :
    clean ext -> extension_ok ext res
| extension_failed ext q r :
    clean ext -> status_code r >= 300 ->
    extension_ok (ext ++ [Request q r]) (Raise (exception_handler r [])).

Definition sound {A : Type} (m : M A) : Prop :=
  forall t0, exists ext,
    fst (m t0) = t0 ++ ext /\ extension_ok ext (snd (m t0)).

(** The outcome of a pass over the tail of the live list, with the head
    [b] put back in front of what is left of the tail. *)
Definition keep_head {A B} (b : A) (r : trace * result (list A * B))
  : trace * result (list A * B) :=
  (fst r,
   match snd r with
   | Ok (l, x) => Ok (b :: l, x)
   | Raise e => Raise e
   | Pending => Pending
   end).

(** The method and the URL of an exchange; [None] for the other events. *)
Definition exchange_of (e : event) : option (http_method * str) :=
  match e with
  | Request q _ => Some (req_method q, req_url q)
  | _ => None
  end.

(** ** Concrete inputs and services used by the examples *)

(** A response with status 200. *)
Definition ok_response (j : json_object) (c : str) : response :=
  mkResponse 200 [] c (Some c) (Some j).

(** A service that accepts everything: each job is created with id [J1],
    is complete as soon as it is asked about, and each of its result
    partitions is a header line and one row. *)
Definition complete_service (t : trace) (req : request) : response :=
  ok_response [(u "id", JString (u "J1")); (u "state", JString (u "JobComplete"))]
    (u "h" ++ [LF] ++ u "r1").

(** The same service with empty result bodies. *)
Definition empty_results_service (t : trace) (req : request) : response :=
  ok_response [(u "id", JString (u "J1")); (u "state", JString (u "JobComplete"))]
    [].

(** A service that answers every request with status 400. *)
Definition refusing_service (t : trace) (req : request) : response :=
  mkResponse 400 (req_url req) (u "bad") (Some (u "bad")) None.

(** A file system on which every write goes through. *)
Definition writable (t : trace) (name contents : str) : option exn := None.

Definition contacts : SFBulk_v2Type :=
  mkSFBulk_v2Type (u "Contact") (u "https://sf/jobs/ingest/") [].

Definition job_A : json_value := JString (u "A").
Definition job_B : json_value := JString (u "B").

(** A source with a header and one data row. *)
Definition one_row_source : bulk_data :=
  DataReader (iter [[u "Name"]; [u "x"]]).

Definition insert_payload : json_object :=
  [(u "operation", JString (u "insert"));
   (u "object", JString (u "Contact"));
   (u "contentType", JString (u "CSV"));
   (u "lineEnding", JString (u "LF"))].

(** ** Notions used to state further properties *)

(** Every event a computation adds to the trace satisfies [P]. *)
Definition emits {A : Type} (P : event -> Prop) (m : M A) : Prop :=
  forall t0, exists ext, fst (m t0) = t0 ++ ext /\ Forall P ext.

(** The request of [_get_job]. *)
Definition status_request (self : SFBulk_v2Type) (job_id : json_value)
  : request :=
  mkRequest GET (bulk_url self ++ py_str job_id) (headers self) NoData.

(** The request of [_add_batch]. *)
Definition batch_request (self : SFBulk_v2Type) (job_id : json_value)
    (data : str) : request :=
  mkRequest PUT (bulk_url self ++ py_str job_id ++ u "/batches/")
    (dict_set (headers self) (u "Content-Type") (u "text/csv"))
    (TextData data).

(** The request of [_close_job]. *)
Definition close_request (self : SFBulk_v2Type) (job_id : json_value)
  : request :=
  mkRequest PATCH (bulk_url self ++ py_str job_id) (headers self)
    (JsonData [(u "state", JString (u "UploadComplete"))]).

(** The requests of the ingest protocol, for one operation. *)
Inductive protocol_request (self : SFBulk_v2Type)
    (operation object_name : str) (external_id_field : option str)
  : request -> Prop :=
| is_create :
    protocol_request self operation object_name external_id_field
      (create_request self
         (create_payload operation object_name external_id_field))
| is_batch job_id data :
    protocol_request self operation object_name external_id_field
      (batch_request self job_id data)
| is_close job_id :
    protocol_request self operation object_name external_id_field
      (close_request self job_id)
| is_status job_id :
    protocol_request self operation object_name external_id_field
      (status_request self job_id)
| is_results job_id suffix :
    In suffix [u "/successfulResults/"; u "/failedResults/";
               u "/unprocessedrecords/"] ->
    protocol_request self operation object_name external_id_field
      (results_request self job_id suffix).

(** The events of one operation: protocol requests, sleeps of [wait]
    seconds, and writes to the file batch.csv. *)
Definition protocol_event (self : SFBulk_v2Type)
    (operation object_name : str) (external_id_field : option str)
    (wait : Z) (e : event) : Prop :=
  match e with
  | Request q _ =>
      protocol_request self operation object_name external_id_field q
  | Sleep seconds => seconds = wait
  | WriteFile name _ => name = u "batch.csv"
  end.

(** ** bulk_v2.py: class SFBulk_v2Handler *)

(** The handler keeps the session id, the URL and the headers it builds
    from them; its session, like that of [SFBulk_v2Type], is the service
    the operations are run against. *)
Record SFBulk_v2Handler := mkSFBulk_v2Handler {
  session_id : str;
  handler_bulk_url : str;
  handler_headers : list (str * str)
}.

(** [SFBulk_v2Handler.__init__(session_id, bulk_url)] *)
Definition SFBulk_v2Handler_init (session_id bulk_url : str)
  : SFBulk_v2Handler :=
  mkSFBulk_v2Handler session_id bulk_url
    [(u "Content-Type", u "application/json; charset=UTF-8");
     (u "Accept", u "application/json");
     (u "Authorization", u "Bearer " ++ session_id)].

(** [SFBulk_v2Handler.__getattr__(name)] *)
Definition SFBulk_v2Handler_getattr (self : SFBulk_v2Handler) (name : str)
  : SFBulk_v2Type :=
  mkSFBulk_v2Type name (handler_bulk_url self) (handler_headers self).

(** What the requests of an operation reached through a handler carry. *)
Definition authorized_event (session_id bulk_url : str) (e : event) : Prop :=
  match e with
  | Request q _ =>
      dict_get (u "Authorization") (req_headers q)
      = Some (u "Bearer " ++ session_id) /\
      dict_get (u "Accept") (req_headers q) = Some (u "application/json") /\
      dict_get (u "Content-Type") (req_headers q)
      = Some (match req_method q with
              | PUT => u "text/csv"
              | _ => u "application/json; charset=UTF-8"
              end) /\
      exists rest, req_url q = bulk_url ++ rest
  | _ => True
  end.

(** The bodies of the upload requests of a trace, in order. *)
Definition uploaded (t : trace) : list str :=
  flat_map (fun e =>
              match e with
              | Request q _ =>
                  match req_method q, req_data q with
                  | PUT, TextData data => [data]
                  | _, _ => []
                  end
              | _ => []
              end) t.

(** The requests of a trace all use one of the methods [ms]. *)
Definition methods_in (ms : list http_method) (e : event) : Prop :=
  match e with
  | Request q _ => In (req_method q) ms
  | _ => True
  end.

(** A computation uploads an initial part of [l], and all of [l] when it
    returns. *)
Definition uploads {A : Type} (m : M A) (l : list str) : Prop :=
  forall t0, exists ext,
    fst (m t0) = t0 ++ ext /\
    (exists rest, l = uploaded ext ++ rest) /\
    (forall a, snd (m t0) = Ok a -> uploaded ext = l).

(** The rows an operation reads its data as. *)
Definition source_rows (data : bulk_data) : gen row + exn :=
  match data with
  | DataList l =>
      match json_list_to_file l with
      | inl file => inl (csv_reader file)
      | inr e => inr e
      end
  | DataReader rows => inl rows
  end.

(** The chunks of an operation's data. *)
Definition chunks_of (data : bulk_data) : list str :=
  match source_rows data with
  | inl rows => yielded (split_csv rows (inject_Z 100))
  | inr _ => []
  end.

(** Whenever it is asked, the service reports a state for [job] that is
    not terminal. *)
Definition never_terminal (respond : trace -> request -> response)
    (self : SFBulk_v2Type) (job : json_value) : Prop :=
  forall t,
    status_code (respond t (status_request self job)) < 300 /\
    exists j st,
      json (respond t (status_request self job)) = Some j /\
      dict_get (u "state") j = Some st /\
      ~ In st terminal_states.



(** A service whose jobs are never done. *)
Definition busy_service (t : trace) (req : request) : response :=
  ok_response [(u "id", JString (u "J1")); (u "state", JString (u "InProgress"))]
    [].


(** The accounted size of a group of rows. *)
Definition cost (g : list row) : Z := fold_right Z.add 0 (map row_cost g).


(** An iterator that yields the elements of [l] and then raises [e]. *)
Fixpoint iter_raise {A} (l : list A) (e : exn) : gen A :=
  match l with
  | [] => GenRaise e
  | a :: l' => Yield a (iter_raise l' e)
  end.

(** The row written for a record under the header [fieldnames]: its
    values in the order of the header, an empty field for a key it does
    not have. *)
Definition record_row (fieldnames : list str) (r : record) : row :=
  map (fun key => match dict_get key r with
                  | Some v => csv_str v
                  | None => []
                  end) fieldnames.

(** Every key of the record is in the header. *)
Definition fits (fieldnames : list str) (r : record) : Prop :=
  forall k, In k (keys r) -> In k fieldnames.

(** A field the writer and the reader agree on: it has no carriage
    return (the buffer would turn it into a line feed) and it is not
    longer than the reader's field limit. *)
Definition good_field (f : str) : Prop :=
  ~ In CR f /\ Z.of_nat (length f) <= field_limit.

(** The characters of a line, fed to the parser without the end-of-line
    mark. *)
Fixpoint feed (r : ReaderObj) (s : str) : ReaderObj + exn :=
  match s with
  | [] => inl r
  | c :: s' =>
      match parse_process_char r (Some c) with
      | inl r' => feed r' s'
      | inr e => inr e
      end
  end.

(** What [next] returns when the lines are used up. *)
Definition end_of_input (r : ReaderObj) : gen row :=
  if nonempty (field r) || is_IN_QUOTED_FIELD (state r)
  then Yield (rev (fields (parse_save_field r))) GenReturn
  else GenReturn.

(** The reader over a text instead of over its lines: the end-of-line
    mark is fed after each line feed, and at the end of the text when a
    line is open ([midline]). *)
Fixpoint reader_text (r : ReaderObj) (midline : bool) (s : str) : gen row :=
  match s with
  | [] =>
      if midline then
        match parse_process_char r None with
        | inr e => GenRaise e
        | inl r' =>
            if is_START_RECORD (state r')
            then Yield (rev (fields r')) GenReturn
            else end_of_input r'
        end
      else end_of_input r
  | c :: s' =>
      match parse_process_char r (Some c) with
      | inr e => GenRaise e
      | inl r1 =>
          if (c =? LF)%N then
            match parse_process_char r1 None with
            | inr e => GenRaise e
            | inl r2 =>
                if is_START_RECORD (state r2)
                then Yield (rev (fields r2)) (reader_text parse_reset false s')
                else reader_text r2 false s'
            end
          else reader_text r1 true s'
      end
  end.

(** The parser after the text of the field [f], with [fs] the fields
    read before it (reversed). *)
Definition after_field (f : str) (fs : list str) : ReaderObj :=
  if existsb needs_quotes f then mkReader QUOTE_IN_QUOTED_FIELD (rev f) fs
  else match f with
       | [] => mkReader START_FIELD [] fs
       | _ => mkReader IN_FIELD (rev f) fs
       end.

(** The text of a record before its line terminator. *)
Definition record_body (r : row) : str :=
  match r with
  | [[]] => [DQUOTE; DQUOTE]
  | _ => join [COMMA] (map join_append r)
  end.

(** Records whose keys and values the writer and the reader agree on,
    none with a key that the first record lacks. *)
Definition encodable (first : record) (rest : list record) : Prop :=
  Forall (fits (keys first)) rest /\
  Forall good_field (keys first) /\
  Forall (fun r => Forall good_field (record_row (keys first) r))
    (first :: rest).

(** ** util.py: date_to_iso8601 *)

Definition COLON : N := 58.
Definition PLUS : N := 43.

(** [s[i:j]] for indices [0 <= i <= j]; a slice never fails. *)
Definition py_slice (i j : nat) (s : str) : str := take (j - i) (drop i s).

(** [s.replace(old, new)] for an [old] of one character. *)
Definition replace_char (old : N) (new : str) (s : str) : str :=
  flat_map (fun c => if (c =? old)%N then new else [c]) s.

(** [date_to_iso8601(date)].  The function uses nothing of [date] but its
    [strftime] method, which is what the argument is here. *)
Definition date_to_iso8601 (strftime : str -> str) : str :=
  let datetimestr := strftime (u "%Y-%m-%dT%H:%M:%S") in
  let timezone_sign := py_slice 0 1 (strftime (u "%z")) in
  let timezone_str :=
    py_slice 1 3 (strftime (u "%z")) ++ u ":"
      ++ py_slice 3 5 (strftime (u "%z")) in
  replace_char PLUS (u "%2B")
    (replace_char COLON (u "%3A")
       (datetimestr ++ timezone_sign ++ timezone_str)).

(** A text without colon and plus sign. *)
Definition plain (s : str) : Prop := ~ In COLON s /\ ~ In PLUS s.

(** The [strftime] of 2020-02-29 13:05:09 at UTC+05:30. *)
Definition leap_day_strftime (fmt : str) : str :=
  if decide (fmt = u "%z") then u "+0530" else u "2020-02-29T13:05:09".

(** The [strftime] of the same moment without a time zone. *)
Definition naive_strftime (fmt : str) : str :=
  if decide (fmt = u "%z") then [] else u "2020-02-29T13:05:09".

(** A result body: a header line and data rows separated by line feeds,
    with or without a line feed after the last of them. *)
Definition csv_body (header : str) (rows : list str) (final_lf : bool)
  : str :=
  join [LF] (header :: rows) ++ (if final_lf then [LF] else []).

(** A line of text: it is not empty and holds none of the line boundaries
    of [splitlines]. *)
Definition text_line (l : str) : Prop := l <> [] /\ no_break l.

(** The number of data rows of a body, after its header, for a way to cut
    a body into rows. *)
Definition data_rows {A} (cut : str -> list A) (body : str) : nat :=
  length (drop 1 (cut body)).

(** The rows [csv.reader] reads from a text. *)
Definition csv_rows (s : str) : list row := yielded (csv_reader s).

(** A service that answers the request that follows [n] events with the
    [n]-th of [bodies]. *)
Definition results_service (bodies : list str) (t : trace) (req : request)
  : response :=
  ok_response [] (nth (length t) bodies []).

(** A form feed. *)
Definition FF : N := 12.

(** The exception a fetch of the merger ends with, if any: the one
    [exception_handler] builds for a status of 300 or more,
    [UnicodeDecodeError] for a body that is not UTF-8. *)
Definition fetch_error (e : event) : option exn :=
  match e with
  | Request _ r =>
      if status_code r >=? 300 then Some (exception_handler r [])
      else match content_utf8 r with
           | Some _ => None
           | None => Some UnicodeDecodeError
           end
  | _ => None
  end.

(** ** Properties *)

(** *** Lines of a text *)

Lemma join_cons sep (x : str) (l : list str) :
  l <> [] -> join sep (x :: l) = x ++ sep ++ join sep l.
Proof. destruct l; [congruence | reflexivity]. Qed.

Lemma join_app sep (l1 l2 : list str) :
  l1 <> [] -> l2 <> [] ->
  join sep (l1 ++ l2) = join sep l1 ++ sep ++ join sep l2.
Proof.
  intros H1 H2. induction l1 as [|x l1 IH]; [congruence|].
  destruct l1 as [|y l1].
  - simpl app. rewrite join_cons by assumption. reflexivity.
  - change ((x :: y :: l1) ++ l2) with (x :: ((y :: l1) ++ l2)).
    rewrite (join_cons sep x ((y :: l1) ++ l2)) by done.
    rewrite (join_cons sep x (y :: l1)) by done.
    rewrite IH by done. rewrite <- !app_assoc. reflexivity.
Qed.

Lemma join_prefixed (sep pad : str) (l : list str) :
  l <> [] -> pad ++ join (sep ++ pad) l = join sep (map (app pad) l).
Proof.
  induction l as [|x l IH]; [congruence|]. intros _.
  destruct l as [|y l]; [reflexivity|].
  rewrite (join_cons _ x (y :: l)) by done.
  change (map (app pad) (x :: y :: l)) with ((pad ++ x) :: map (app pad) (y :: l)).
  rewrite (join_cons _ (pad ++ x) (map (app pad) (y :: l))) by done.
  rewrite <- IH by done. rewrite <- !app_assoc. reflexivity.
Qed.

Lemma split_lf_from_line cur (x : str) :
  LF ∉ x -> split_lf_from cur x = [rev cur ++ x].
Proof.
  revert cur. induction x as [|c x IH]; intros cur Hx; simpl.
  - by rewrite app_nil_r.
  - destruct (N.eqb_spec c LF) as [->|Hc].
    + exfalso. apply Hx. left.
    + rewrite IH by (intros H; apply Hx; by right).
      simpl. by rewrite <- app_assoc.
Qed.

Lemma split_lf_from_app cur (x s : str) :
  LF ∉ x ->
  split_lf_from cur (x ++ LF :: s) = (rev cur ++ x) :: split_lf_from [] s.
Proof.
  revert cur. induction x as [|c x IH]; intros cur Hx; simpl.
  - by rewrite app_nil_r.
  - destruct (N.eqb_spec c LF) as [->|Hc].
    + exfalso. apply Hx. left.
    + rewrite IH by (intros H; apply Hx; by right).
      simpl. by rewrite <- app_assoc.
Qed.

Lemma split_lf_join (lines : list str) :
  lines <> [] -> Forall (fun l => LF ∉ l) lines ->
  split_lf (join [LF] lines) = lines.
Proof.
  unfold split_lf. induction lines as [|x lines IH]; [congruence|].
  intros _ Hall. inversion Hall as [|? ? Hx Hrest]; subst.
  destruct lines as [|y lines].
  - simpl. by rewrite split_lf_from_line.
  - rewrite join_cons by done. simpl app.
    rewrite split_lf_from_app by assumption. simpl. f_equal.
    apply IH; [done | assumption].
Qed.

Lemma no_break_LF (l : str) : no_break l -> LF ∉ l.
Proof.
  intros H Hin. unfold no_break in H. rewrite list.Forall_forall in H.
  specialize (H _ Hin). discriminate.
Qed.



Lemma splitlines_from_line cur (x : str) :
  no_break x -> rev cur ++ x <> [] ->
  splitlines_from cur x = [rev cur ++ x].
Proof.
  revert cur. induction x as [|c x IH]; intros cur Hx Hne; simpl.
  - rewrite app_nil_r in *. destruct cur; [done|reflexivity].
  - inversion Hx as [|? ? Hc Hx']; subst. rewrite Hc.
    rewrite IH; [|assumption|]; simpl; rewrite <- app_assoc; done.
Qed.

Lemma splitlines_from_app cur (x s : str) :
  no_break x ->
  splitlines_from cur (x ++ LF :: s) = (rev cur ++ x) :: splitlines_from [] s.
Proof.
  revert cur. induction x as [|c x IH]; intros cur Hx.
  - rewrite app_nil_r. simpl. by destruct s.
  - inversion Hx as [|? ? Hc Hx']; subst. simpl. rewrite Hc.
    rewrite IH by assumption. simpl. by rewrite <- app_assoc.
Qed.

(** Lines without boundaries, none of them empty, are found again by
    [splitlines] after they were joined by line feeds. *)
Lemma splitlines_join (lines : list str) :
  Forall no_break lines -> Forall (fun l => l <> []) lines ->
  splitlines (join [LF] lines) = lines.
Proof.
  unfold splitlines. induction lines as [|x lines IH]; [reflexivity|].
  intros Hnb Hne.
  inversion Hnb as [|? ? Hx Hnb']; inversion Hne as [|? ? Hx' Hne']; subst.
  destruct lines as [|y lines].
  - simpl. by rewrite splitlines_from_line.
  - rewrite (join_cons _ x (y :: lines)) by done. simpl app.
    rewrite splitlines_from_app by assumption. simpl. f_equal.
    by apply IH.
Qed.

(** *** The chunker *)

Example split_csv_one_chunk :
  split_csv (iter [[u "a"; u "b"]; [u "1"; u "2"]; [u "3"; u "4"]]) (inject_Z 100)
  = Yield (u "a,b" ++ [LF] ++ u "1,2" ++ [LF] ++ u "3,4" ++ [LF]) GenReturn.
Proof. reflexivity. Qed.

Lemma written_snoc header g line :
  writerow (written header g) line = written header (g ++ [line]).
Proof. unfold written. by rewrite fold_left_app. Qed.

(** The chunks of the inner loop, row by row: every chunk is the header
    followed by a group of rows, and the groups are the rows in hand
    ([acc], then [line], then [rows]) in order, except that the last group
    may come twice. *)
Lemma chunk_loop_groups header max_bytes (rows : list row) :
  forall l line acc,
    output l = written header acc ->
    exists groups,
      chunk_loop max_bytes (split_loop header max_bytes) l line (iter rows)
      = iter (map (written header) groups) /\
      (concat groups = acc ++ line :: rows \/
       exists init g, groups = init ++ [g; g] /\
                      concat (init ++ [g]) = acc ++ line :: rows).
Proof.
  induction rows as [|x rows IH]; intros l line acc Hl;
    cbn [chunk_loop iter]; rewrite Hl, written_snoc; cbn [n output];
    destruct (_ >=? max_bytes).
  - exists [acc ++ [line]; acc ++ [line]]. split; [reflexivity|].
    right. exists [], (acc ++ [line]). split; [reflexivity|].
    simpl. by rewrite app_nil_r.
  - exists [acc ++ [line]]. split; [reflexivity|]. left.
    simpl. by rewrite app_nil_r.
  - destruct (IH (mkLocals (writerow [] header) 0 0) x [] eq_refl)
      as [groups [Hg Hc]].
    exists ((acc ++ [line]) :: groups). split.
    + cbn [split_loop]. cbn [map iter]. by rewrite <- Hg.
    + destruct Hc as [Hc|[init [g [-> Hc]]]].
      * left. simpl. rewrite Hc. by rewrite <- app_assoc.
      * right. exists ((acc ++ [line]) :: init), g. split; [reflexivity|].
        simpl in *. rewrite Hc. by rewrite <- app_assoc.
  - destruct (IH (mkLocals (written header (acc ++ [line]))
                    (n l + row_cost line) (log_rows l + 1)) x (acc ++ [line])
                eq_refl) as [groups [Hg Hc]].
    exists groups. split; [exact Hg|].
    rewrite <- app_assoc in Hc. exact Hc.
Qed.

(** X1: with at least one data row the generator returns normally; each chunk
    is the header and a group of rows; the groups, in order, are the data
    rows, or the data rows with the last group repeated. *)
Lemma split_csv_bytes_groups header line rows max_bytes :
  exists groups,
    split_csv_bytes (iter (header :: line :: rows)) max_bytes
    = iter (map (written header) groups) /\
    (concat groups = line :: rows \/
     exists init g, groups = init ++ [g; g] /\
                    concat (init ++ [g]) = line :: rows).
Proof.
  apply (chunk_loop_groups header max_bytes rows
           (mkLocals (writerow [] header) 0 0) line [] eq_refl).
Qed.

Lemma row_cost_pos line : 0 < row_cost line.
Proof.
  unfold row_cost. set (s := fold_right _ _ _).
  assert (0 <= s) by (subst s; induction line; simpl; lia).
  lia.
Qed.

Lemma chunk_loop_repeats_last_chunk header max_bytes r (rows : list row) :
  row_cost r >= max_bytes ->
  forall l line, 0 <= n l ->
    exists pre chunk,
      yielded (chunk_loop max_bytes (split_loop header max_bytes) l line
                 (iter (rows ++ [r])))
      = pre ++ [chunk; chunk].
Proof.
  intros Hr. induction rows as [|x rows IH]; intros l line Hn;
    cbn [chunk_loop iter app]; cbn [n output];
    pose proof (row_cost_pos line);
    destruct (n l + row_cost line >=? max_bytes) eqn:Hc.
  - cbn [split_loop chunk_loop yielded n output].
    replace (0 + row_cost r >=? max_bytes) with true by lia.
    cbn [yielded split_loop after_loops output getvalue].
    eexists [_], _. reflexivity.
  - cbn [n output].
    replace (n l + row_cost line + row_cost r >=? max_bytes) with true by lia.
    cbn [yielded split_loop after_loops output getvalue].
    eexists [], _. reflexivity.
  - cbn [yielded split_loop].
    destruct (IH (mkLocals (writerow [] header) 0 0) x) as [pre [c Hy]];
      [simpl; lia|].
    fold (chunk_loop max_bytes (split_loop header max_bytes)).
    rewrite Hy. eexists (_ :: pre), c. reflexivity.
  - fold (chunk_loop max_bytes (split_loop header max_bytes)).
    apply IH. simpl. lia.
Qed.

(** X2: whenever the last data row alone reaches [max_bytes], the last two
    chunks are the same chunk. *)
Lemma split_csv_bytes_repeats_last_chunk header rows r max_bytes :
  row_cost r >= max_bytes ->
  exists pre chunk,
    yielded (split_csv_bytes (iter (header :: rows ++ [r])) max_bytes)
    = pre ++ [chunk; chunk].
Proof.
  intros Hr. destruct rows as [|x rows].
  - cbn. replace (0 + row_cost r >=? max_bytes) with true by lia.
    eexists [], _. reflexivity.
  - apply (chunk_loop_repeats_last_chunk header max_bytes r rows Hr
             (mkLocals (writerow [] header) 0 0) x). simpl. lia.
Qed.

(** X3: a chunk is closed by the row that takes it to the limit or over it:
    two rows that are each below the limit share a chunk whose accounted
    size is their sum. *)
Lemma first_chunk_keeps_the_row_that_crosses_the_limit
    header r1 r2 rest max_bytes :
  row_cost r1 < max_bytes -> max_bytes <= row_cost r1 + row_cost r2 ->
  exists batches,
    split_csv_bytes (iter (header :: r1 :: r2 :: rest)) max_bytes
    = Yield (written header [r1; r2]) batches.
Proof.
  intros H1 H2. destruct rest; cbn;
    replace (0 + row_cost r1 >=? max_bytes) with false by lia;
    replace (0 + row_cost r1 + row_cost r2 >=? max_bytes) with true by lia;
    eexists; reflexivity.
Qed.

Lemma chunk_loop_yields header max_bytes (rest : list row) : forall l line,
  exists chunk batches,
    chunk_loop max_bytes (split_loop header max_bytes) l line (iter rest)
    = Yield chunk batches.
Proof.
  induction rest as [|r rest IH]; intros l line; simpl.
  - destruct (_ >=? max_bytes); eauto.
  - destruct (_ >=? max_bytes); eauto.
Qed.

(** A source with a header and a data row has a first chunk. *)
Lemma split_csv_first_chunk header line rest split_size :
  exists chunk batches,
    split_csv (iter (header :: line :: rest)) split_size = Yield chunk batches.
Proof. apply chunk_loop_yields. Qed.

(** C1, at a failing input.  The header [a], the single data row [x] and
    [max_bytes = 1] (a split_size of 2^-20): the row closes its chunk, the
    chunk is yielded, the outer loop finds the iterator exhausted, and the
    statement after the loops yields the same buffer again.  The data rows
    of the chunks are [x; x], not [x]. *)
Theorem split_csv_yields_last_chunk_twice :
  let chunks := yielded (split_csv (iter [[u "a"]; [u "x"]]) (1 # 1048576)) in
  max_bytes_of (1 # 1048576) = 1 /\
  chunks = [u "a" ++ [LF] ++ u "x" ++ [LF]; u "a" ++ [LF] ++ u "x" ++ [LF]] /\
  flat_map (fun chunk => drop 1 (yielded (csv_reader chunk))) chunks
    = [[u "x"]; [u "x"]] /\
  flat_map (fun chunk => drop 1 (yielded (csv_reader chunk))) chunks
    <> [[u "x"]].
Proof. vm_compute. repeat split; congruence. Qed.

(** C2, at a failing input.  With [max_bytes = 10] and three rows that
    each cost 6, the first chunk is closed only after its second row, at
    an accounted size of 12: over the limit although no row alone is. *)
Theorem split_csv_chunk_over_limit :
  let rows := [[u "ab"]; [u "cd"]; [u "ef"]] in
  let chunks := yielded (split_csv (iter ([u "h"] :: rows)) (10 # 1048576)) in
  max_bytes_of (10 # 1048576) = 10 /\
  Forall (fun r => row_cost r <= 10) rows /\
  exists chunk rest,
    chunks = chunk :: rest /\
    drop 1 (yielded (csv_reader chunk)) = [[u "ab"]; [u "cd"]] /\
    fold_right Z.add 0 (map row_cost (drop 1 (yielded (csv_reader chunk)))) = 12.
Proof.
  split; [reflexivity|]. split.
  - repeat constructor; vm_compute; congruence.
  - eexists _, _. vm_compute. repeat split; reflexivity.
Qed.

(** C3, at every input with a header and no data row: the body of the
    outer loop never runs, so [start] is unbound when the statement after
    the loops reads it; the generator raises and yields no chunk. *)
Theorem split_csv_header_only_raises (header : row) (split_size : Q) :
  split_csv (iter [header]) split_size
  = GenRaise (UnboundLocalError (u "start")).
Proof. reflexivity. Qed.

(** *** The result merger *)

Lemma more_than_one_line (l : list str) :
  (1 <? length l)%nat = nonempty (drop 1 l).
Proof. by destruct l as [|a [|b l]]. Qed.

Lemma nonempty_false {A} (l : list A) : nonempty l = false -> l = [].
Proof. by destruct l. Qed.

Lemma nonempty_true {A} (l : list A) : nonempty l = true -> l <> [].
Proof. by destruct l. Qed.

(** With a success body that has a first line, the merged body is the
    lines of [merged_lines] joined by line feeds. *)
Lemma combine_results_join s f un hs srows :
  splitlines s = hs :: srows ->
  combine_results s f un = inl (join [LF] (merged_lines hs srows f un)).
Proof.
  intros Hs. unfold combine_results, merged_lines. rewrite Hs.
  rewrite !more_than_one_line. f_equal.
  change (drop 1 (hs :: srows)) with srows.
  assert (H1 : (if nonempty srows then hs ++ [LF] ++ join [LF] srows else hs)
               = join [LF] (hs :: srows)).
  { destruct srows; [reflexivity|]. by rewrite (join_cons _ hs). }
  rewrite H1. clear H1.
  set (F := drop 1 (splitlines f)). set (U := drop 1 (splitlines un)).
  assert (H2 : (if nonempty F then join [LF] (hs :: srows) ++ [LF] ++ join [LF] F
                else join [LF] (hs :: srows))
               = join [LF] ((hs :: srows) ++ F)).
  { destruct (nonempty F) eqn:HF.
    - rewrite join_app; [done|done|by apply nonempty_true].
    - apply nonempty_false in HF. by rewrite HF, app_nil_r. }
  rewrite H2. clear H2.
  change (hs :: srows ++ F ++ map (app quoted_empty_pair) U)
    with ((hs :: srows) ++ F ++ map (app quoted_empty_pair) U).
  rewrite (app_assoc (hs :: srows)).
  destruct (nonempty U) eqn:HU.
  - apply nonempty_true in HU.
    rewrite (join_app _ ((hs :: srows) ++ F)); [|done|by destruct U].
    rewrite <- (join_prefixed [LF] quoted_empty_pair U) by assumption.
    reflexivity.
  - apply nonempty_false in HU. by rewrite HU, app_nil_r.
Qed.

(** When the three fetches are answered, [_get_job_results] adds exactly
    these three exchanges and merges the three bodies. *)
Lemma _get_job_results_fetches respond self job_id t s f un :
  fetches respond self job_id t s f un ->
  _get_job_results respond self job_id t
  = (t ++ results_exchanges respond self job_id t,
     match combine_results s f un with inl m => Ok m | inr e => Raise e end).
Proof.
  unfold fetches, results_exchanges, answered.
  intros [[H1 C1] [[H2 C2] [H3 C3]]].
  unfold _get_job_results, bind, call_salesforce, content_decode.
  fold (results_request self job_id (u "/successfulResults/")).
  fold (results_request self job_id (u "/failedResults/")).
  fold (results_request self job_id (u "/unprocessedrecords/")).
  assert (G : forall z, z < 300 -> (z >=? 300) = false) by (intros; lia).
  rewrite (G _ H1), C1. unfold ret at 1.
  rewrite (G _ H2), C2. unfold ret at 1.
  rewrite <- (app_assoc t).
  rewrite (G _ H3), C3. unfold ret at 1.
  rewrite <- (app_assoc t). unfold lift.
  destruct (combine_results s f un); reflexivity.
Qed.

Lemma parse_add_char_with_fields extra r c :
  parse_add_char (with_fields extra r) c
  = map_reader (with_fields extra) (parse_add_char r c).
Proof.
  unfold parse_add_char. simpl. by destruct (field_limit <=? _).
Qed.




Lemma splitlines_join_final (lines : list str) :
  lines <> [] -> Forall no_break lines ->
  splitlines (join [LF] lines ++ [LF]) = lines.
Proof.
  intros Hne Hnb. unfold splitlines.
  induction lines as [|x [|y l] IH]; [done| |].
  - simpl join. inversion Hnb; subst.
    change (x ++ [LF]) with (x ++ LF :: []).
    by rewrite splitlines_from_app.
  - inversion Hnb; subst.
    rewrite (join_cons [LF] x (y :: l)) by done.
    rewrite <- !app_assoc.
    change ([LF] ++ join [LF] (y :: l) ++ [LF])
      with (LF :: (join [LF] (y :: l) ++ [LF])).
    rewrite splitlines_from_app by assumption.
    simpl rev. simpl app at 1. f_equal. by apply IH.
Qed.

Lemma splitlines_csv_body header rows final_lf :
  Forall text_line (header :: rows) ->
  splitlines (csv_body header rows final_lf) = header :: rows.
Proof.
  intros Hall. unfold csv_body.
  assert (Hnb : Forall no_break (header :: rows))
    by (revert Hall; apply List.Forall_impl; by intros l [_ H]).
  assert (Hne : Forall (fun l : str => l <> []) (header :: rows))
    by (revert Hall; apply List.Forall_impl; by intros l [H _]).
  destruct final_lf.
  - by apply splitlines_join_final.
  - rewrite app_nil_r. by apply splitlines_join.
Qed.


(** C4, amended: when the three fetches are answered and each body is a
    header line followed by its data rows, separated by line feeds, with
    or without a final line feed, and the header and the rows are not
    empty and hold no line boundary of [splitlines], the merger returns
    the success header, the [S] success rows, the [F] failed rows and
    the [U] unprocessed rows, these with two quoted empty fields in
    front, joined by line feeds: a body of exactly 1 + S + F + U lines,
    counted with [splitlines] or as the texts between its line feeds. *)
Theorem merged_body_line_count respond self job_id t
    hs srows hf frows hu urows (lf_s lf_f lf_u : bool) :
  Forall text_line (hs :: srows) ->
  Forall text_line (hf :: frows) ->
  Forall text_line (hu :: urows) ->
  fetches respond self job_id t
    (csv_body hs srows lf_s) (csv_body hf frows lf_f)
    (csv_body hu urows lf_u) ->
  exists merged,
    _get_job_results respond self job_id t
    = (t ++ results_exchanges respond self job_id t, Ok merged) /\
    merged
    = join [LF] (hs :: srows ++ frows ++ map (app quoted_empty_pair) urows) /\
    length (splitlines merged)
    = (1 + length srows + length frows + length urows)%nat /\
    length (split_lf merged)
    = (1 + length srows + length frows + length urows)%nat.
Proof.
  intros Hs Hfl Hu Hf.
  pose proof (splitlines_csv_body hs srows lf_s Hs) as Es.
  pose proof (splitlines_csv_body hf frows lf_f Hfl) as Ef.
  pose proof (splitlines_csv_body hu urows lf_u Hu) as Eu.
  set (lines := hs :: srows ++ frows ++ map (app quoted_empty_pair) urows).
  exists (join [LF] lines).
  rewrite (_get_job_results_fetches _ _ _ _ _ _ _ Hf).
  rewrite (combine_results_join _ _ _ _ _ Es).
  unfold merged_lines. rewrite Ef, Eu. simpl drop. rewrite !drop_0.
  fold lines.
  assert (Hall : Forall text_line lines).
  { unfold lines. inversion Hs; inversion Hfl; inversion Hu; subst.
    constructor; [assumption|].
    apply Forall_app; split; [assumption|].
    apply Forall_app; split; [assumption|].
    apply List.Forall_forall. intros r' Hr'.
    apply List.in_map_iff in Hr' as [r [<- Hr]].
    match goal with
    | H : Forall text_line urows |- _ =>
        rewrite List.Forall_forall in H; destruct (H _ Hr) as [_ Hnb]
    end.
    split; [done|]. unfold no_break. apply Forall_app; split; [|exact Hnb].
    repeat constructor. }
  assert (Hnb : Forall no_break lines)
    by (revert Hall; apply List.Forall_impl; by intros l [_ H]).
  assert (Hne : Forall (fun l : str => l <> []) lines)
    by (revert Hall; apply List.Forall_impl; by intros l [H _]).
  assert (Hlen : length lines
                 = (1 + length srows + length frows + length urows)%nat).
  { unfold lines. simpl length. rewrite !length_app, length_map.
    unfold str. lia. }
  split; [reflexivity|]. split; [reflexivity|]. split.
  - by rewrite splitlines_join.
  - rewrite split_lf_join; [exact Hlen | done |].
    revert Hnb. apply List.Forall_impl. apply no_break_LF.
Qed.

Lemma merged_body_line_count_witness :
  let body := csv_body (u "h") [u "r1"] false in
  Forall text_line (u "h" :: [u "r1"]) /\
  fetches complete_service contacts job_A [] body body body /\
  exists merged,
    _get_job_results complete_service contacts job_A []
    = ([] ++ results_exchanges complete_service contacts job_A [], Ok merged) /\
    merged
    = join [LF] (u "h" :: [u "r1"] ++ [u "r1"]
                   ++ map (app quoted_empty_pair) [u "r1"]) /\
    length (splitlines merged) = (1 + 1 + 1 + 1)%nat /\
    length (split_lf merged) = (1 + 1 + 1 + 1)%nat.
Proof.
  intros body.
  assert (Hl : Forall text_line (u "h" :: [u "r1"])).
  { repeat constructor; try discriminate. }
  assert (Hf : fetches complete_service contacts job_A [] body body body).
  { unfold fetches, answered. simpl. repeat split; reflexivity. }
  split; [exact Hl|]. split; [exact Hf|].
  exact (merged_body_line_count complete_service contacts job_A []
           (u "h") [u "r1"] (u "h") [u "r1"] (u "h") [u "r1"]
           false false false Hl Hl Hl Hf).
Defined.

(** C4 as stated fails, however rows and lines are counted, as long as
    they are counted the same way.  A success body whose one data row
    holds a form feed is merged into three lines, where the rows are the
    texts between line feeds or the rows [csv.reader] reads; a success
    body whose one data row is empty is merged into one line, where rows
    and lines are those of [splitlines].  The failed and the unprocessed
    body have no data row. *)
Lemma merged_line_count_fails :
  (let s := u "h" ++ [LF] ++ u "a" ++ [FF] ++ u "b" in
   let merged := u "h" ++ [LF] ++ u "a" ++ [LF] ++ u "b" in
   _get_job_results (results_service [s; u "h"; u "h"]) contacts job_A []
   = (results_exchanges (results_service [s; u "h"; u "h"]) contacts job_A [],
      Ok merged) /\
   length (split_lf merged)
   <> (1 + data_rows split_lf s + data_rows split_lf (u "h")
       + data_rows split_lf (u "h"))%nat /\
   length (csv_rows merged)
   <> (1 + data_rows csv_rows s + data_rows csv_rows (u "h")
       + data_rows csv_rows (u "h"))%nat) /\
  (let s := u "h" ++ [LF; LF] in
   let merged := u "h" ++ [LF] in
   _get_job_results (results_service [s; u "h"; u "h"]) contacts job_A []
   = (results_exchanges (results_service [s; u "h"; u "h"]) contacts job_A [],
      Ok merged) /\
   length (splitlines merged)
   <> (1 + data_rows splitlines s + data_rows splitlines (u "h")
       + data_rows splitlines (u "h"))%nat).
Proof. vm_compute. repeat split; congruence. Qed.




(** X4: a failed or unprocessed body with at most one line (only a header, or
    nothing at all) adds nothing to the merged body. *)
Lemma empty_partitions_contribute_nothing s f un hs srows :
  splitlines s = hs :: srows ->
  (length (splitlines f) <= 1)%nat -> (length (splitlines un) <= 1)%nat ->
  combine_results s f un = inl (join [LF] (hs :: srows)).
Proof.
  intros Hs Hf Hu. rewrite (combine_results_join _ _ _ _ _ Hs).
  unfold merged_lines.
  replace (drop 1 (splitlines f)) with (@nil str)
    by (destruct (splitlines f) as [|? [|? ?]]; simpl in *; [done|done|lia]).
  replace (drop 1 (splitlines un)) with (@nil str)
    by (destruct (splitlines un) as [|? [|? ?]]; simpl in *; [done|done|lia]).
  simpl. by rewrite app_nil_r.
Qed.

(** C6, at a failing input: when the success body is empty,
    [result_success.splitlines()[0]] raises [IndexError], whatever the
    other two bodies are; the three fetches themselves succeed. *)
Theorem empty_success_body_raises_IndexError :
  (forall f un, combine_results [] f un = inr IndexError) /\
  fetches empty_results_service contacts job_A [] [] [] [] /\
  _get_job_results empty_results_service contacts job_A []
  = (results_exchanges empty_results_service contacts job_A [],
     Raise IndexError).
Proof.
  split; [reflexivity|]. split; [|reflexivity].
  unfold fetches, answered. simpl. repeat split; reflexivity.
Qed.

(** *** Failed exchanges end the computation *)

Lemma sound_ret {A} (a : A) : sound (ret a).
Proof.
  intros t0. exists []. simpl. rewrite app_nil_r.
  split; [done|]. apply extension_clean. constructor.
Qed.

Lemma sound_raise {A} (e : exn) : sound (@raise A e).
Proof.
  intros t0. exists []. simpl. rewrite app_nil_r.
  split; [done|]. apply extension_clean. constructor.
Qed.

Lemma sound_pending {A} : sound (@pending A).
Proof.
  intros t0. exists []. simpl. rewrite app_nil_r.
  split; [done|]. apply extension_clean. constructor.
Qed.

Lemma sound_lift {A} (r : A + exn) : sound (lift r).
Proof. destruct r; [apply sound_ret | apply sound_raise]. Qed.

Lemma sound_emit (e : event) : http_failed e = false -> sound (emit e).
Proof.
  intros He t0. exists [e]. simpl. split; [done|].
  apply extension_clean. by repeat constructor.
Qed.

Lemma sound_bind {A B} (m : M A) (k : A -> M B) :
  sound m -> (forall a, sound (k a)) -> sound (bind m k).
Proof.
  intros Hm Hk t0. unfold bind.
  destruct (Hm t0) as [e1 [Ht1 H1]].
  destruct (m t0) as [t1 [a| e |]]; simpl in *; subst t1.
  - destruct (Hk a (t0 ++ e1)) as [e2 [Ht2 H2]].
    destruct (k a (t0 ++ e1)) as [t2 res2]; simpl in *; subst t2.
    exists (e1 ++ e2). rewrite app_assoc. split; [done|].
    inversion H1 as [? ? Hc1|]; subst.
    inversion H2 as [? ? Hc2|e2' q r Hc2 Hr]; subst.
    + apply extension_clean. by apply Forall_app.
    + rewrite app_assoc.
      apply extension_failed; [by apply Forall_app | done].
  - exists e1. split; [done|].
    inversion H1; subst; [by apply extension_clean | by apply extension_failed].
  - exists e1. split; [done|]. inversion H1; subst. by apply extension_clean.
Qed.

Create HintDb sound.

Lemma sound_write_file file_error name contents :
  sound (write_file file_error name contents).
Proof.
  intros t0. unfold write_file.
  destruct (file_error t0 name contents) as [e|]; simpl.
  - exists []. rewrite app_nil_r. split; [done|].
    apply extension_clean. constructor.
  - exists [WriteFile name contents]. split; [done|].
    apply extension_clean. by repeat constructor.
Qed.

Section sound_methods.
Variable respond : trace -> request -> response.
Variable file_error : trace -> str -> str -> option exn.
Variable self : SFBulk_v2Type.

Lemma sound_call_salesforce url method headers data :
  sound (call_salesforce respond url method headers data).
Proof.
  intros t0. unfold call_salesforce.
  set (req := mkRequest method url headers data).
  exists [Request req (respond t0 req)].
  destruct (status_code (respond t0 req) >=? 300) eqn:Hs; simpl.
  - split; [done|]. apply (extension_failed []); [constructor | lia].
  - split; [done|]. apply extension_clean.
    constructor; [exact Hs | constructor].
Qed.

Lemma sound_result_json r : sound (result_json r).
Proof.
  unfold result_json.
  destruct (json r); [apply sound_ret | apply sound_raise].
Qed.

Lemma sound_content_decode r : sound (content_decode r).
Proof.
  unfold content_decode.
  destruct (content_utf8 r); [apply sound_ret | apply sound_raise].
Qed.

#[local] Hint Resolve sound_ret sound_raise sound_pending sound_lift
  sound_call_salesforce sound_result_json sound_content_decode : sound.

Ltac sound_step :=
  repeat first
    [ solve [auto with sound]
    | apply sound_emit; reflexivity
    | apply sound_bind; [|intros ?] ].

Lemma sound_create_job operation object_name external_id_field :
  sound (_create_job respond self operation object_name external_id_field).
Proof. unfold _create_job. sound_step. Qed.

Lemma sound_add_batch job_id data operation :
  sound (_add_batch respond self job_id data operation).
Proof. unfold _add_batch. sound_step. Qed.

Lemma sound_close_job job_id : sound (_close_job respond self job_id).
Proof. unfold _close_job. sound_step. Qed.

Lemma sound_get_job job_id : sound (_get_job respond self job_id).
Proof. unfold _get_job. sound_step. Qed.

Lemma sound_get_job_results job_id :
  sound (_get_job_results respond self job_id).
Proof. unfold _get_job_results. sound_step. Qed.

#[local] Hint Resolve sound_create_job sound_add_batch sound_close_job
  sound_get_job sound_get_job_results : sound.

Lemma sound_submit_batches object_name operation external_id_field batches :
  forall job_ids,
    sound (submit_batches respond file_error self object_name operation
             external_id_field batches job_ids).
Proof.
  induction batches as [batch batches' IH| |e]; intros job_ids; simpl.
  - apply sound_bind; [apply sound_write_file|]. intros _.
    sound_step; apply IH.
  - apply sound_ret.
  - apply sound_raise.
Qed.

Lemma sound_poll_pass steps : forall i job_ids results,
  sound (poll_pass respond self steps i job_ids results).
Proof.
  induction steps as [|steps IH]; intros i job_ids results; simpl.
  - destruct (job_ids !! i); apply sound_ret.
  - destruct (job_ids !! i); [|apply sound_ret].
    sound_step.
    destruct (negb _); [apply IH|]. sound_step; apply IH.
Qed.

Lemma sound_poll_jobs passes wait : forall job_ids results,
  sound (poll_jobs respond self passes wait job_ids results).
Proof.
  induction passes as [|passes IH]; intros job_ids results;
    destruct job_ids as [|job job_ids]; cbn [poll_jobs];
    try apply sound_ret.
  - apply sound_pending.
  - apply sound_bind; [apply sound_poll_pass|]. intros st.
    unfold sleep. sound_step; apply IH.
Qed.

Lemma sound_bulk_operation object_name operation data external_id_field
    wait passes :
  sound (_bulk_operation respond file_error self object_name operation data
           external_id_field wait passes).
Proof.
  unfold _bulk_operation. apply sound_bind.
  - destruct data; sound_step.
  - intros rows. apply sound_bind; [apply sound_submit_batches|].
    intros job_ids. apply sound_poll_jobs.
Qed.

End sound_methods.

Lemma app_cons_eq_snoc {A} (pre post l : list A) (x y : A) :
  pre ++ x :: post = l ++ [y] ->
  (post = [] /\ x = y /\ pre = l) \/ In x l.
Proof.
  destruct post as [|p post _] using rev_ind; intros H.
  - left. apply app_inj_tail in H as [-> ->]. done.
  - right. rewrite app_comm_cons, app_assoc in H.
    apply app_inj_tail in H as [<- _]. apply in_or_app. right. by left.
Qed.

Lemma failed_exchange_is_last {A} ext (res : result A) pre req resp post :
  extension_ok ext res ->
  ext = pre ++ Request req resp :: post ->
  status_code resp >= 300 ->
  post = [] /\ res = Raise (exception_handler resp []).
Proof.
  intros Hext Heq Hst.
  assert (Hbad : forall l, clean l -> In (Request req resp) l -> False).
  { intros l Hl Hin. unfold clean in Hl. rewrite List.Forall_forall in Hl.
    specialize (Hl _ Hin). simpl in Hl. lia. }
  inversion Hext as [? ? Hc|ext' q r Hc Hr Hsnoc]; subst.
  - exfalso. apply (Hbad _ Hc). apply in_or_app. right. by left.
  - symmetry in Hsnoc.
    apply app_cons_eq_snoc in Hsnoc as [[-> [Heq _]]|Hin].
    + by inversion Heq; subst.
    + exfalso. by apply (Hbad _ Hc).
Qed.

Lemma trace_bind {A B} (m : M A) (k : A -> M B) t0 :
  (forall a, sound (k a)) ->
  exists ext, fst (bind m k t0) = fst (m t0) ++ ext.
Proof.
  intros Hk. unfold bind. destruct (m t0) as [t1 [a|e|]]; simpl.
  - destruct (Hk a t1) as [ext [Hext _]]. by exists ext.
  - exists []. by rewrite app_nil_r.
  - exists []. by rewrite app_nil_r.
Qed.

(** *** The scheduler *)

(** The bound on the iterations of a pass is never what ends it: with
    [len(job_ids) - i] steps or more the pass is the same. *)
Lemma poll_pass_steps_enough respond self : forall steps steps' i job_ids results t,
  (length job_ids - i <= steps)%nat -> (steps <= steps')%nat ->
  poll_pass respond self steps' i job_ids results t
  = poll_pass respond self steps i job_ids results t.
Proof.
  induction steps as [|steps IH]; intros steps' i job_ids results t Hlen Hle.
  - assert (Hnone : job_ids !! i = None) by (apply lookup_ge_None; lia).
    destruct steps'; simpl; by rewrite Hnone.
  - destruct steps' as [|steps']; [lia|]. simpl.
    destruct (job_ids !! i) as [job|] eqn:Hjob; [|reflexivity].
    apply lookup_lt_Some in Hjob.
    unfold bind. destruct (_get_job respond self job t) as [t1 [j| |]];
      [|reflexivity..].
    destruct (lift (getitem j (u "state")) t1) as [t2 [st| |]];
      [|reflexivity..].
    destruct (negb _).
    + apply IH; lia.
    + destruct (_get_job_results respond self job t2) as [t3 [res| |]];
        [|reflexivity..].
      apply IH; [|lia]. rewrite length_delete by eauto using lookup_lt_is_Some_2. lia.
Qed.

(** A pass that has gone beyond the head of the list leaves it alone. *)
Lemma poll_pass_after_head respond self b : forall steps i l results t,
  poll_pass respond self steps (S i) (b :: l) results t
  = keep_head b (poll_pass respond self steps i l results t).
Proof.
  induction steps as [|steps IH]; intros i l results t.
  - simpl. by destruct (l !! i).
  - simpl. destruct (l !! i) as [job|]; [|reflexivity].
    unfold bind. destruct (_get_job respond self job t) as [t1 [j| |]];
      [|reflexivity..].
    destruct (lift (getitem j (u "state")) t1) as [t2 [st| |]];
      [|reflexivity..].
    destruct (negb _); [apply IH|].
    destruct (_get_job_results respond self job t2) as [t3 [res| |]];
      [|reflexivity..].
    apply IH.
Qed.

(** When the job at index 0 is terminal and its results are fetched, the
    pass goes on with the jobs after its successor [b]: [b] stays in the
    live list and is not asked about in this pass. *)
Lemma poll_pass_skips_successor respond self steps a b rest results
    t t1 j st t2 merged :
  _get_job respond self a t = (t1, Ok j) ->
  dict_get (u "state") j = Some st ->
  st ∈ terminal_states ->
  _get_job_results respond self a t1 = (t2, Ok merged) ->
  poll_pass respond self (S steps) 0 (a :: b :: rest) results t
  = keep_head b (poll_pass respond self steps 0 rest (results ++ [merged]) t2).
Proof.
  intros Hjob Hst Hterm Hres. cbn [poll_pass lookup list_lookup].
  unfold bind at 1. rewrite Hjob.
  unfold bind at 1. unfold getitem. rewrite Hst. cbn [lift ret].
  rewrite bool_decide_eq_true_2 by assumption. cbn [negb].
  unfold bind at 1. rewrite Hres.
  apply poll_pass_after_head.
Qed.

(** C7, at a failing input.  Two live jobs, A and B, both complete.  In
    the first pass A is asked about, removed, and its results are fetched;
    B has moved to index 0 while the iterator goes on to index 1, so the
    pass ends with B still live and never asked about.  B is handled in
    the second pass, after the sleep. *)
Theorem poll_pass_skips_job_after_removed_job :
  let base := bulk_url contacts in
  let pass := poll_pass complete_service contacts 2 0 [job_A; job_B] [] [] in
  let loop := poll_jobs complete_service contacts 2 5 [job_A; job_B] [] [] in
  (exists merged, snd pass = Ok ([job_B], [merged])) /\
  map exchange_of (fst pass)
  = [Some (GET, base ++ u "A");
     Some (GET, base ++ u "A/successfulResults/");
     Some (GET, base ++ u "A/failedResults/");
     Some (GET, base ++ u "A/unprocessedrecords/")] /\
  map exchange_of (fst loop)
  = [Some (GET, base ++ u "A");
     Some (GET, base ++ u "A/successfulResults/");
     Some (GET, base ++ u "A/failedResults/");
     Some (GET, base ++ u "A/unprocessedrecords/");
     None;
     Some (GET, base ++ u "B");
     Some (GET, base ++ u "B/successfulResults/");
     Some (GET, base ++ u "B/failedResults/");
     Some (GET, base ++ u "B/unprocessedrecords/");
     None].
Proof. vm_compute. split; [eexists; reflexivity|]. split; reflexivity. Qed.

(** *** Errors of the remote service *)

(** C8: in a run of [_bulk_operation], followed for any number of polling
    passes, an exchange answered with a status of 300 or more is the last
    event of the trace, and the run ends by raising the exception that
    [exception_handler] builds from that response: its class is the one
    the status selects (300, 400, 401, 403, 404, or the general error for
    any other status), with the response's URL, status and content. *)
Theorem http_error_aborts_bulk_operation
    respond file_error self object_name operation data external_id_field
    wait passes pre req resp post :
  let run := _bulk_operation respond file_error self object_name operation
               data external_id_field wait passes [] in
  fst run = pre ++ Request req resp :: post ->
  status_code resp >= 300 ->
  post = [] /\
  snd run = Raise (SalesforceError (exc_map (status_code resp)) (resp_url resp)
                     (status_code resp) []
                     (match json resp with
                      | Some j => ContentJson j
                      | None => ContentText (text resp)
                      end)) /\
  exc_map 300 = SalesforceMoreThanOneRecord /\
  exc_map 400 = SalesforceMalformedRequest /\
  exc_map 401 = SalesforceExpiredSession /\
  exc_map 403 = SalesforceRefusedRequest /\
  exc_map 404 = SalesforceResourceNotFound /\
  (forall status, status <> 300 -> status <> 400 -> status <> 401 ->
     status <> 403 -> status <> 404 -> exc_map status = SalesforceGeneralError).
Proof.
  intros run Htrace Hst.
  destruct (sound_bulk_operation respond file_error self object_name
              operation data external_id_field wait passes [])
    as [ext [Hext Hok]].
  fold run in Hext, Hok. simpl in Hext. rewrite Hext in Htrace.
  destruct (failed_exchange_is_last _ _ _ _ _ _ Hok Htrace Hst) as [-> Hres].
  split; [reflexivity|]. split; [exact Hres|].
  repeat split.
  intros status H1 H2 H3 H4 H5. unfold exc_map.
  repeat match goal with
  | |- context [match ?x with _ => _ end] => destruct x; try reflexivity; try lia
  end.
Qed.

Lemma http_error_aborts_bulk_operation_witness :
  let run := _bulk_operation refusing_service writable contacts (u "Contact")
               (u "insert") one_row_source None 5 1 [] in
  let w := WriteFile (u "batch.csv") (u "Name" ++ [LF] ++ u "x" ++ [LF]) in
  let q := create_request contacts insert_payload in
  let r := refusing_service [w] q in
  fst run = [w] ++ Request q r :: [] /\
  status_code r >= 300 /\
  [] = @nil event /\
  snd run = Raise (SalesforceError SalesforceMalformedRequest
                     (bulk_url contacts) 400 [] (ContentText (u "bad"))).
Proof.
  intros run w q r.
  assert (H1 : fst run = [w] ++ Request q r :: []) by reflexivity.
  assert (H2 : status_code r >= 300) by (vm_compute; discriminate).
  split; [exact H1|]. split; [exact H2|].
  destruct (http_error_aborts_bulk_operation refusing_service writable
              contacts (u "Contact") (u "insert") one_row_source None 5 1%nat
              [w] q r [] H1 H2) as [Hpost [Hres _]].
  split; [reflexivity | exact Hres].
Defined.

(** What follows a write that goes through, and one that fails. *)
Lemma write_file_ok {B} file_error name contents (k : unit -> M B) t :
  file_error t name contents = None ->
  bind (write_file file_error name contents) k t
  = k tt (t ++ [WriteFile name contents]).
Proof. intros H. unfold bind, write_file. by rewrite H. Qed.

Lemma write_file_fails {B} file_error name contents (k : unit -> M B) t e :
  file_error t name contents = Some e ->
  bind (write_file file_error name contents) k t = (t, Raise e).
Proof. intros H. unfold bind, write_file. by rewrite H. Qed.

(** The first events of an operation whose source has a chunk: the chunk
    is written to the file and, when that write goes through, the
    create-job request is sent. *)
Lemma bulk_operation_first_exchange respond file_error self object_name
    operation rows external_id_field wait passes chunk batches :
  split_csv rows (inject_Z 100) = Yield chunk batches ->
  file_error [] (u "batch.csv") chunk = None ->
  let w := WriteFile (u "batch.csv") chunk in
  let q := create_request self
             (create_payload operation object_name external_id_field) in
  exists post,
    fst (_bulk_operation respond file_error self object_name operation
           (DataReader rows) external_id_field wait passes [])
    = w :: Request q (respond [w] q) :: post.
Proof.
  intros Hsplit Hw w q. unfold _bulk_operation.
  change (bind (ret rows) ?k []) with (k rows []). cbv beta.
  rewrite Hsplit.
  destruct (trace_bind
              (submit_batches respond file_error self object_name operation
                 external_id_field (Yield chunk batches) [])
              (fun job_ids => poll_jobs respond self passes wait job_ids [])
              []) as [e1 He1].
  { intros a. apply sound_poll_jobs. }
  rewrite He1. clear He1.
  cbn [submit_batches].
  rewrite (write_file_ok _ _ _ _ _ Hw). simpl app. fold w.
  match goal with
  | |- context [bind (_create_job _ _ _ _ _) ?k [w]] =>
      destruct (trace_bind
                  (_create_job respond self operation object_name
                     external_id_field) k [w]) as [e2 He2]
  end.
  { intros job. repeat first
      [ apply sound_lift | apply sound_add_batch | apply sound_close_job
      | apply sound_submit_batches
      | apply sound_bind; [|intros ?] ]. }
  rewrite He2. clear He2.
  change (_create_job respond self operation object_name external_id_field)
    with (bind (call_salesforce respond (bulk_url self) POST (headers self)
                  (JsonData (create_payload operation object_name
                               external_id_field)))
               (fun result => result_json result)).
  destruct (trace_bind
              (call_salesforce respond (bulk_url self) POST (headers self)
                 (JsonData (create_payload operation object_name
                              external_id_field)))
              (fun result => result_json result) [w]) as [e3 He3].
  { intros a. apply sound_result_json. }
  rewrite He3. clear He3.
  exists ((e3 ++ e2) ++ e1).
  unfold call_salesforce. subst q. unfold create_request.
  destruct (status_code _ >=? 300); reflexivity.
Qed.

(** The run of an operation whose first create-job request is refused. *)
Lemma create_refused
    respond file_error self object_name operation rows external_id_field
    wait passes chunk batches :
  split_csv rows (inject_Z 100) = Yield chunk batches ->
  file_error [] (u "batch.csv") chunk = None ->
  let w := WriteFile (u "batch.csv") chunk in
  let q := create_request self
             (create_payload operation object_name external_id_field) in
  status_code (respond [w] q) >= 300 ->
  _bulk_operation respond file_error self object_name operation
    (DataReader rows) external_id_field wait passes []
  = ([w; Request q (respond [w] q)],
     Raise (exception_handler (respond [w] q) [])).
Proof.
  intros Hsplit Hw w q Hst. unfold _bulk_operation.
  change (bind (ret rows) ?k []) with (k rows []). cbv beta.
  rewrite Hsplit. cbn [submit_batches].
  unfold bind at 1. rewrite (write_file_ok _ _ _ _ _ Hw). simpl app.
  fold w.
  change (_create_job respond self operation object_name external_id_field)
    with (bind (call_salesforce respond (bulk_url self) POST (headers self)
                  (JsonData (create_payload operation object_name
                               external_id_field)))
               (fun result => result_json result)).
  unfold bind, call_salesforce.
  fold (create_request self
          (create_payload operation object_name external_id_field)).
  fold q.
  assert (H : (status_code (respond [w] q) >=? 300) = true) by lia.
  rewrite H. reflexivity.
Qed.

(** X5: when the first chunk is written to batch.csv and the create-job
    request that follows is answered with a status of 300 or more, the
    run is the file write and that exchange, it raises the exception
    built from the response, and nothing is uploaded. *)
Lemma create_job_failure_stops_before_upload
    respond file_error self object_name operation rows external_id_field
    wait passes chunk batches :
  split_csv rows (inject_Z 100) = Yield chunk batches ->
  file_error [] (u "batch.csv") chunk = None ->
  let w := WriteFile (u "batch.csv") chunk in
  let q := create_request self
             (create_payload operation object_name external_id_field) in
  status_code (respond [w] q) >= 300 ->
  _bulk_operation respond file_error self object_name operation
    (DataReader rows) external_id_field wait passes []
  = ([w; Request q (respond [w] q)],
     Raise (exception_handler (respond [w] q) [])).
Proof.
  intros Hsplit Hw w q Hst.
  exact (create_refused respond file_error self object_name operation rows
           external_id_field wait passes chunk batches Hsplit Hw Hst).
Qed.

(** *** The facade *)

(** The refused create-job request of an operation, for any operation;
    used for the upsert below. *)
Lemma upsert_create_refused respond file_error self rows passes chunk
    batches :
  split_csv rows (inject_Z 100) = Yield chunk batches ->
  file_error [] (u "batch.csv") chunk = None ->
  let w := WriteFile (u "batch.csv") chunk in
  let q := create_request self (upsert_payload_without_id self) in
  status_code (respond [w] q) >= 300 ->
  upsert respond file_error self (DataReader rows) None passes []
  = ([w; Request q (respond [w] q)],
     Raise (exception_handler (respond [w] q) [])).
Proof.
  intros Hsplit Hw w q Hst. unfold upsert.
  exact (create_refused respond file_error self (object_name self)
           (u "upsert") rows None 5 passes chunk batches Hsplit Hw Hst).
Qed.

(** C9, amended: [upsert] does not check [external_id_field].  With a
    null field and a source that has a header and at least one row, once
    the first chunk is written to batch.csv the first request is the
    create-job request, and its payload carries [externalIdFieldName] as
    null: the absence is forwarded to the service.  When the service
    answers that request with a status of 300 or more, the operation
    stops there and raises the exception built from that response. *)
Theorem upsert_without_external_id_reaches_the_service
    respond file_error self header line rest passes :
  let rows := iter (header :: line :: rest) in
  let w := WriteFile (u "batch.csv") (first_chunk rows) in
  let q := create_request self (upsert_payload_without_id self) in
  let run := upsert respond file_error self (DataReader rows) None passes
               [] in
  file_error [] (u "batch.csv") (first_chunk rows) = None ->
  (exists batches,
     split_csv rows (inject_Z 100) = Yield (first_chunk rows) batches) /\
  req_data q = JsonData (upsert_payload_without_id self) /\
  dict_get (u "externalIdFieldName") (upsert_payload_without_id self)
  = Some JNull /\
  (exists post, fst run = w :: Request q (respond [w] q) :: post) /\
  (status_code (respond [w] q) >= 300 ->
   run = ([w; Request q (respond [w] q)],
          Raise (exception_handler (respond [w] q) []))).
Proof.
  intros rows w q run Hw.
  destruct (split_csv_first_chunk header line rest (inject_Z 100))
    as [chunk [batches Hsplit]].
  assert (Hc : first_chunk rows = chunk)
    by (unfold first_chunk, rows; by rewrite Hsplit).
  subst w q run. rewrite Hc in *.
  split; [by exists batches|]. split; [reflexivity|].
  split; [reflexivity|]. split.
  - exact (bulk_operation_first_exchange respond file_error self
             (object_name self) (u "upsert") _ None 5 passes chunk batches
             Hsplit Hw).
  - intros Hst.
    exact (upsert_create_refused respond file_error self _ passes chunk
             batches Hsplit Hw Hst).
Qed.

Lemma upsert_without_external_id_reaches_the_service_witness :
  let rows := iter [[u "Name"]; [u "x"]] in
  let w := WriteFile (u "batch.csv") (u "Name" ++ [LF] ++ u "x" ++ [LF]) in
  let q := create_request contacts (upsert_payload_without_id contacts) in
  writable [] (u "batch.csv") (first_chunk rows) = None /\
  status_code (refusing_service [w] q) >= 300 /\
  upsert refusing_service writable contacts (DataReader rows) None 1 []
  = ([w; Request q (refusing_service [w] q)],
     Raise (exception_handler (refusing_service [w] q) [])).
Proof.
  intros rows w q.
  assert (Hw : writable [] (u "batch.csv") (first_chunk rows) = None)
    by reflexivity.
  assert (Hst : status_code (refusing_service [w] q) >= 300)
    by (vm_compute; discriminate).
  split; [exact Hw|]. split; [exact Hst|].
  destruct (upsert_without_external_id_reaches_the_service refusing_service
              writable contacts [u "Name"] [u "x"] [] 1%nat Hw)
    as [_ [_ [_ [_ Hrun]]]].
  exact (Hrun Hst).
Defined.

(** C9 as stated fails: against a service that accepts everything, an
    upsert without an external id field sends its create-job request with
    a null [externalIdFieldName] and returns normally. *)
Lemma upsert_without_external_id_sends_null :
  exists w resp post merged,
    upsert complete_service writable contacts one_row_source None 1 []
    = (w :: Request (create_request contacts (upsert_payload_without_id contacts))
               resp :: post,
       Ok merged) /\
    dict_get (u "externalIdFieldName") (upsert_payload_without_id contacts)
    = Some JNull.
Proof. do 4 eexists. split; reflexivity. Qed.

(** C10: with an empty list of records, each public operation raises
    before anything is sent: [json_list_to_file] writes nothing, the
    reader over the empty file has no row, and [next(data)] in the
    chunker fails (as [RuntimeError], since it happens in a generator).
    The trace is left as it was: no request, no file, no sleep. *)
Theorem empty_list_raises_before_any_request
    (respond : trace -> request -> response)
    (file_error : trace -> str -> str -> option exn) (self : SFBulk_v2Type)
    (external_id_field : option str) (passes : nat) (t : trace) :
  let e := RuntimeError (u "generator raised StopIteration") in
  insert_ respond file_error self (DataList []) passes t = (t, Raise e) /\
  update respond file_error self (DataList []) passes t = (t, Raise e) /\
  upsert respond file_error self (DataList []) external_id_field passes t
  = (t, Raise e) /\
  delete_ respond file_error self (DataList []) passes t = (t, Raise e).
Proof. repeat split; reflexivity. Qed.

(** *** What an operation sends *)

Lemma emits_ret {A} P (a : A) : emits P (ret a).
Proof. intros t0. exists []. simpl. by rewrite app_nil_r. Qed.

Lemma emits_raise {A} P (e : exn) : emits P (@raise A e).
Proof. intros t0. exists []. simpl. by rewrite app_nil_r. Qed.

Lemma emits_pending {A} P : emits P (@pending A).
Proof. intros t0. exists []. simpl. by rewrite app_nil_r. Qed.

Lemma emits_lift {A} P (r : A + exn) : emits P (lift r).
Proof. destruct r; [apply emits_ret | apply emits_raise]. Qed.

Lemma emits_emit (P : event -> Prop) (e : event) : P e -> emits P (emit e).
Proof. intros He t0. exists [e]. simpl. split; [done|]. by repeat constructor. Qed.

Lemma emits_bind {A B} P (m : M A) (k : A -> M B) :
  emits P m -> (forall a, emits P (k a)) -> emits P (bind m k).
Proof.
  intros Hm Hk t0. unfold bind.
  destruct (Hm t0) as [e1 [Ht1 H1]].
  destruct (m t0) as [t1 [a| e |]]; simpl in *; subst t1;
    [|by exists e1..].
  destruct (Hk a (t0 ++ e1)) as [e2 [Ht2 H2]].
  exists (e1 ++ e2). rewrite Ht2, app_assoc. split; [done|].
  by apply Forall_app.
Qed.

Lemma emits_call_salesforce (P : event -> Prop) respond url method headers data :
  (forall r, P (Request (mkRequest method url headers data) r)) ->
  emits P (call_salesforce respond url method headers data).
Proof.
  intros HP t0. unfold call_salesforce.
  exists [Request (mkRequest method url headers data)
            (respond t0 (mkRequest method url headers data))].
  split; [by destruct (_ >=? 300)|]. by repeat constructor.
Qed.

Lemma emits_result_json P r : emits P (result_json r).
Proof. unfold result_json. destruct (json r); [apply emits_ret | apply emits_raise]. Qed.

Lemma emits_content_decode P r : emits P (content_decode r).
Proof.
  unfold content_decode.
  destruct (content_utf8 r); [apply emits_ret | apply emits_raise].
Qed.

Lemma emits_write_file (P : event -> Prop) file_error name contents :
  P (WriteFile name contents) ->
  emits P (write_file file_error name contents).
Proof.
  intros HP t0. unfold write_file.
  destruct (file_error t0 name contents) as [e|]; simpl.
  - exists []. by rewrite app_nil_r.
  - exists [WriteFile name contents]. split; [done|]. by repeat constructor.
Qed.

Section protocol.
Variable respond : trace -> request -> response.
Variable file_error : trace -> str -> str -> option exn.
Variable self : SFBulk_v2Type.
Variables operation object_name : str.
Variable external_id_field : option str.
Variable wait : Z.

Let P := protocol_event self operation object_name external_id_field wait.

Ltac emits_step :=
  repeat first
    [ apply emits_ret | apply emits_raise | apply emits_pending
    | apply emits_lift | apply emits_result_json | apply emits_content_decode
    | apply emits_emit; reflexivity
    | apply emits_call_salesforce; intros ?
    | apply emits_bind; [|intros ?] ].

Lemma emits_create_job :
  emits P (_create_job respond self operation object_name external_id_field).
Proof. unfold _create_job. emits_step. apply is_create. Qed.

Lemma emits_add_batch job_id data :
  emits P (_add_batch respond self job_id data operation).
Proof. unfold _add_batch. emits_step. apply is_batch. Qed.

Lemma emits_close_job job_id : emits P (_close_job respond self job_id).
Proof. unfold _close_job. emits_step. apply is_close. Qed.

Lemma emits_get_job job_id : emits P (_get_job respond self job_id).
Proof. unfold _get_job. emits_step. apply is_status. Qed.

Lemma emits_get_job_results job_id :
  emits P (_get_job_results respond self job_id).
Proof.
  unfold _get_job_results. emits_step;
    apply (is_results self operation object_name external_id_field job_id);
    simpl; tauto.
Qed.

Lemma emits_submit_batches batches : forall job_ids,
  emits P (submit_batches respond file_error self object_name operation
             external_id_field batches job_ids).
Proof.
  induction batches as [batch batches' IH| |e]; intros job_ids;
    cbn [submit_batches]; [|apply emits_ret|apply emits_raise].
  apply emits_bind; [apply emits_write_file; reflexivity|]. intros _.
  apply emits_bind; [apply emits_create_job|]. intros job.
  apply emits_bind; [apply emits_lift|]. intros job_id.
  apply emits_bind; [apply emits_add_batch|]. intros _.
  apply emits_bind; [apply emits_close_job|]. intros _.
  apply IH.
Qed.

Lemma emits_poll_pass steps : forall i job_ids results,
  emits P (poll_pass respond self steps i job_ids results).
Proof.
  induction steps as [|steps IH]; intros i job_ids results; simpl.
  - destruct (job_ids !! i); apply emits_ret.
  - destruct (job_ids !! i) as [job|]; [|apply emits_ret].
    apply emits_bind; [apply emits_get_job|]. intros job_json.
    apply emits_bind; [apply emits_lift|]. intros st.
    destruct (negb _); [apply IH|].
    apply emits_bind; [apply emits_get_job_results|]. intros res.
    apply IH.
Qed.

Lemma emits_poll_jobs passes : forall job_ids results,
  emits P (poll_jobs respond self passes wait job_ids results).
Proof.
  induction passes as [|passes IH]; intros job_ids results;
    destruct job_ids as [|job job_ids]; cbn [poll_jobs];
    try apply emits_ret; [apply emits_pending|].
  apply emits_bind; [apply emits_poll_pass|]. intros st.
  unfold sleep. apply emits_bind; [apply emits_emit; reflexivity|].
  intros _. apply IH.
Qed.

Lemma emits_bulk_operation data passes :
  emits P (_bulk_operation respond file_error self object_name operation data
             external_id_field wait passes).
Proof.
  unfold _bulk_operation. apply emits_bind.
  - destruct data; emits_step.
  - intros rows. apply emits_bind; [apply emits_submit_batches|].
    intros job_ids. apply emits_poll_jobs.
Qed.

(** X6: whatever the service answers and whatever the data is, every
    event of a bulk operation is an event of the ingest protocol: the
    create request (POST to [bulk_url] with the operation's payload), an
    upload (PUT to [bulk_url] + id + /batches/ with a CSV text), a close
    request (PATCH to [bulk_url] + id), a status request (GET of
    [bulk_url] + id), a result request (GET of [bulk_url] + id + one of
    the three result paths), each with the object's own headers; a
    sleep of [wait] seconds; or a write to the file batch.csv.  Nothing
    else is ever sent. *)
Theorem bulk_operation_sends_only_protocol_requests data passes :
  Forall P
    (fst (_bulk_operation respond file_error self object_name operation data
            external_id_field wait passes [])).
Proof.
  destruct (emits_bulk_operation data passes []) as [ext [Hext Hall]].
  by rewrite Hext.
Qed.
End protocol.

(** X7: an operation on an object reached through a handler sends every
    request to a URL under the handler's [bulk_url], with the handler's
    [Authorization: Bearer] header and its [Accept] header; the
    [Content-Type] is [text/csv] on the upload and the handler's JSON
    content type on every other request. *)
Theorem handler_requests_are_authorized respond file_error session_id url
    name operation object_name data external_id_field wait passes :
  let self :=
    SFBulk_v2Handler_getattr (SFBulk_v2Handler_init session_id url) name in
  Forall (authorized_event session_id url)
    (fst (_bulk_operation respond file_error self object_name operation data
            external_id_field wait passes [])).
Proof.
  intros self.
  destruct (emits_bulk_operation respond file_error self operation
              object_name external_id_field wait data passes [])
    as [ext [Hext Hall]].
  rewrite Hext. simpl app.
  revert Hall. apply List.Forall_impl.
  intros [q r| |]; simpl; [|done..].
  intros Hq. inversion Hq; subst; simpl;
    (split; [reflexivity|]); (split; [reflexivity|]);
    (split; [reflexivity|]); eexists; try reflexivity.
  by rewrite app_nil_r.
Qed.

(** *** What an operation uploads *)

Lemma emits_weaken {A} (P Q : event -> Prop) (m : M A) :
  (forall e, P e -> Q e) -> emits P m -> emits Q m.
Proof.
  intros HPQ Hm t0. destruct (Hm t0) as [ext [Hext Hall]].
  exists ext. split; [done|]. revert Hall. by apply List.Forall_impl.
Qed.

Section methods.
Variable respond : trace -> request -> response.
Variable self : SFBulk_v2Type.

Ltac methods_step :=
  repeat first
    [ apply emits_ret | apply emits_raise | apply emits_pending
    | apply emits_lift | apply emits_result_json | apply emits_content_decode
    | apply emits_emit; exact I
    | apply emits_call_salesforce; intros ?; simpl; tauto
    | apply emits_bind; [|intros ?] ].

Lemma create_job_only_posts operation object_name external_id_field :
  emits (methods_in [POST])
    (_create_job respond self operation object_name external_id_field).
Proof. unfold _create_job. methods_step. Qed.

Lemma close_job_only_patches job_id :
  emits (methods_in [PATCH]) (_close_job respond self job_id).
Proof. unfold _close_job. methods_step. Qed.

Lemma get_job_only_gets job_id :
  emits (methods_in [GET]) (_get_job respond self job_id).
Proof. unfold _get_job. methods_step. Qed.

Lemma get_job_results_only_gets job_id :
  emits (methods_in [GET]) (_get_job_results respond self job_id).
Proof. unfold _get_job_results. methods_step. Qed.

Lemma poll_pass_only_gets steps : forall i job_ids results,
  emits (methods_in [GET]) (poll_pass respond self steps i job_ids results).
Proof.
  induction steps as [|steps IH]; intros i job_ids results; simpl.
  - destruct (job_ids !! i); apply emits_ret.
  - destruct (job_ids !! i) as [job|]; [|apply emits_ret].
    apply emits_bind; [apply get_job_only_gets|]. intros job_json.
    apply emits_bind; [apply emits_lift|]. intros st.
    destruct (negb _); [apply IH|].
    apply emits_bind; [apply get_job_results_only_gets|]. intros res.
    apply IH.
Qed.

Lemma poll_jobs_only_gets passes wait : forall job_ids results,
  emits (methods_in [GET])
    (poll_jobs respond self passes wait job_ids results).
Proof.
  induction passes as [|passes IH]; intros job_ids results;
    destruct job_ids as [|job job_ids]; cbn [poll_jobs];
    try apply emits_ret; [apply emits_pending|].
  apply emits_bind; [apply poll_pass_only_gets|]. intros st.
  unfold sleep. apply emits_bind; [apply emits_emit; exact I|].
  intros _. apply IH.
Qed.
End methods.

Lemma uploaded_app t1 t2 : uploaded (t1 ++ t2) = uploaded t1 ++ uploaded t2.
Proof. unfold uploaded. apply flat_map_app. Qed.

Lemma uploaded_without_put ms ext :
  ~ In PUT ms -> Forall (methods_in ms) ext -> uploaded ext = [].
Proof.
  intros Hms Hall. induction Hall as [|e ext He _ IH]; [reflexivity|].
  change (e :: ext) with ([e] ++ ext).
  rewrite uploaded_app, IH, app_nil_r.
  destruct e as [q r| |]; try reflexivity.
  simpl in *. destruct (req_method q) eqn:Hm; try reflexivity.
  by contradict Hms.
Qed.

Lemma uploads_nothing {A} ms (m : M A) :
  ~ In PUT ms -> emits (methods_in ms) m -> uploads m [].
Proof.
  intros Hms Hm t0. destruct (Hm t0) as [ext [Hext Hall]].
  exists ext. rewrite (uploaded_without_put ms ext Hms Hall).
  split; [done|]. split; [by exists []|done].
Qed.

Lemma uploads_bind {A B} (m : M A) (k : A -> M B) l1 l2 :
  uploads m l1 -> (forall a, uploads (k a) l2) -> uploads (bind m k) (l1 ++ l2).
Proof.
  intros Hm Hk t0. unfold bind.
  destruct (Hm t0) as [e1 [Ht1 [[r1 Hr1] Hok1]]].
  destruct (m t0) as [t1 [a| e |]]; simpl in *; subst t1.
  - destruct (Hk a (t0 ++ e1)) as [e2 [Ht2 [[r2 Hr2] Hok2]]].
    exists (e1 ++ e2). rewrite Ht2, app_assoc, uploaded_app.
    rewrite (Hok1 a eq_refl). split; [done|]. split.
    + exists r2. rewrite Hr2. by rewrite <- app_assoc.
    + intros b Hb. by rewrite (Hok2 b Hb).
  - exists e1. split; [done|]. split; [|done].
    exists (r1 ++ l2). rewrite Hr1. by rewrite <- app_assoc.
  - exists e1. split; [done|]. split; [|done].
    exists (r1 ++ l2). rewrite Hr1. by rewrite <- app_assoc.
Qed.

Lemma uploads_add_batch respond self job_id data operation :
  uploads (_add_batch respond self job_id data operation) [data].
Proof.
  intros t0. unfold _add_batch, bind, call_salesforce.
  eexists [Request _ _].
  destruct (status_code _ >=? 300); simpl;
    (split; [reflexivity|]); (split; [by exists []|done]).
Qed.

Lemma uploads_submit_batches respond file_error self object_name operation
    external_id_field batches : forall job_ids,
  uploads (submit_batches respond file_error self object_name operation
             external_id_field batches job_ids) (yielded batches).
Proof.
  induction batches as [batch batches' IH| |e]; intros job_ids;
    cbn [submit_batches yielded].
  - change (batch :: yielded batches')
      with ([] ++ [] ++ [] ++ [batch] ++ [] ++ yielded batches').
    apply uploads_bind.
    { apply (uploads_nothing []); [simpl; tauto|].
      apply emits_write_file. exact I. }
    intros _. apply uploads_bind.
    { apply (uploads_nothing [POST]); [simpl; intuition discriminate|].
      apply create_job_only_posts. }
    intros job. apply uploads_bind.
    { apply (uploads_nothing []); [simpl; tauto | apply emits_lift]. }
    intros job_id. apply uploads_bind; [apply uploads_add_batch|].
    intros _. apply uploads_bind.
    { apply (uploads_nothing [PATCH]); [simpl; intuition discriminate|].
      apply close_job_only_patches. }
    intros _. apply IH.
  - apply (uploads_nothing []); [simpl; tauto | apply emits_ret].
  - apply (uploads_nothing []); [simpl; tauto | apply emits_raise].
Qed.

(** An operation is the submission of the chunks of its rows, followed
    by polling; data that cannot be encoded ends it at once. *)
Lemma bulk_operation_on_source respond file_error self object_name
    operation data external_id_field wait passes t :
  _bulk_operation respond file_error self object_name operation data
    external_id_field wait passes t
  = match source_rows data with
    | inl rows =>
        bind (submit_batches respond file_error self object_name operation
                external_id_field (split_csv rows (inject_Z 100)) [])
             (fun job_ids => poll_jobs respond self passes wait job_ids []) t
    | inr e => (t, Raise e)
    end.
Proof.
  unfold _bulk_operation, source_rows. destruct data as [l|rows];
    [destruct (json_list_to_file l)|]; reflexivity.
Qed.

(** X8: the bodies an operation uploads are, in order, an initial part
    of the chunks the chunker yields for its data, each uploaded once per
    time it is yielded; when the operation returns, they are all of the
    chunks.  Polling uploads nothing. *)
Theorem bulk_operation_uploads_the_chunks respond file_error self
    object_name operation data external_id_field wait passes :
  let run := _bulk_operation respond file_error self object_name operation
               data external_id_field wait passes [] in
  (exists rest, chunks_of data = uploaded (fst run) ++ rest) /\
  (forall out, snd run = Ok out -> uploaded (fst run) = chunks_of data).
Proof.
  intros run. subst run. rewrite bulk_operation_on_source.
  unfold chunks_of. destruct (source_rows data) as [rows|e].
  - assert (H : uploads
                  (bind (submit_batches respond file_error self object_name
                           operation external_id_field
                           (split_csv rows (inject_Z 100)) [])
                        (fun job_ids =>
                           poll_jobs respond self passes wait job_ids []))
                  (yielded (split_csv rows (inject_Z 100)) ++ [])).
    { apply uploads_bind; [apply uploads_submit_batches|]. intros job_ids.
      apply (uploads_nothing [GET]); [simpl; intuition discriminate|].
      apply poll_jobs_only_gets. }
    rewrite app_nil_r in H.
    destruct (H []) as [ext [Hext [Hpre Hall]]].
    rewrite Hext. simpl app. split; [exact Hpre | exact Hall].
  - simpl. split; [by exists [] | done].
Qed.

(** *** More on the scheduler *)

Lemma get_job_ok respond self job t j :
  status_code (respond t (status_request self job)) < 300 ->
  json (respond t (status_request self job)) = Some j ->
  _get_job respond self job t
  = (t ++ [Request (status_request self job)
             (respond t (status_request self job))], Ok j).
Proof.
  intros Hst Hj. unfold _get_job, bind, call_salesforce.
  fold (status_request self job).
  replace (status_code (respond t (status_request self job)) >=? 300)
    with false by lia.
  unfold result_json. by rewrite Hj.
Qed.

Lemma terminal_decide st :
  bool_decide (st ∈ terminal_states) = true <-> In st terminal_states.
Proof. rewrite bool_decide_eq_true. apply list_elem_of_In. Qed.

Lemma quiet_pass_from respond self results : forall steps i job_ids t,
  Forall (never_terminal respond self) job_ids ->
  (length job_ids - i <= steps)%nat ->
  exists ext,
    poll_pass respond self steps i job_ids results t
    = (t ++ ext, Ok (job_ids, results)) /\
    map exchange_of ext
    = map (fun job => Some (GET, bulk_url self ++ py_str job)) (drop i job_ids).
Proof.
  induction steps as [|steps IH]; intros i job_ids t Hall Hlen.
  - exists []. rewrite app_nil_r, drop_ge by lia.
    assert (Hnone : job_ids !! i = None) by (apply lookup_ge_None; lia).
    simpl. by rewrite Hnone.
  - cbn [poll_pass]. destruct (job_ids !! i) as [job|] eqn:Hjob.
    + pose proof (proj1 (List.Forall_forall _ _) Hall job) as Hquiet.
      destruct (Hquiet (proj1 (list_elem_of_In _ _)
                          (list_elem_of_lookup_2 _ _ _ Hjob)) t)
        as [Hst [j [st [Hj [Hstate Hnot]]]]].
      unfold bind at 1. rewrite (get_job_ok _ _ _ _ _ Hst Hj).
      unfold bind at 1, getitem. rewrite Hstate. cbn [lift ret].
      replace (bool_decide (st ∈ terminal_states)) with false
        by (symmetry; apply not_true_is_false;
            by rewrite terminal_decide).
      cbn [negb].
      destruct (IH (S i) job_ids
                  (t ++ [Request (status_request self job)
                           (respond t (status_request self job))])
                  Hall ltac:(lia)) as [ext [Hext Hmap]].
      eexists (_ :: ext). rewrite Hext, <- app_assoc. split; [reflexivity|].
      rewrite (drop_S _ _ _ Hjob). simpl. by rewrite Hmap.
    + exists []. rewrite app_nil_r, drop_ge
        by (by apply lookup_ge_None).
      done.
Qed.

(** X9: a pass over jobs none of which is in a terminal state asks about
    every job once, in list order, sends nothing else, and leaves the
    live list and the results as they were. *)
Theorem pass_over_unfinished_jobs respond self job_ids results t :
  Forall (never_terminal respond self) job_ids ->
  exists ext,
    poll_pass respond self (length job_ids) 0 job_ids results t
    = (t ++ ext, Ok (job_ids, results)) /\
    map exchange_of ext
    = map (fun job => Some (GET, bulk_url self ++ py_str job)) job_ids.
Proof.
  intros Hall.
  destruct (quiet_pass_from respond self results (length job_ids) 0 job_ids t
              Hall ltac:(lia)) as [ext Hext].
  by exists ext.
Qed.

Lemma pass_over_unfinished_jobs_witness :
  Forall (never_terminal busy_service contacts) [job_A; job_B] /\
  exists ext,
    poll_pass busy_service contacts 2 0 [job_A; job_B] [] []
    = ([] ++ ext, Ok ([job_A; job_B], [])) /\
    map exchange_of ext
    = map (fun job => Some (GET, bulk_url contacts ++ py_str job))
        [job_A; job_B].
Proof.
  assert (H : Forall (never_terminal busy_service contacts) [job_A; job_B]).
  { repeat constructor; try (simpl; lia).
    all: eexists _, _; repeat split; try reflexivity.
    all: vm_compute; intuition discriminate. }
  split; [exact H|].
  exact (pass_over_unfinished_jobs busy_service contacts [job_A; job_B] [] []
           H).
Defined.

Lemma In_delete {A} (x y : A) : forall (l : list A) i,
  l !! i = Some y -> x <> y -> In x l -> In x (delete i l).
Proof.
  induction l as [|a l IH]; intros i Hi Hne Hin; [done|].
  destruct i as [|i]; simpl in *.
  - destruct Hin as [->|Hin]; [congruence | exact Hin].
  - destruct Hin as [->|Hin]; [by left | right; by apply (IH i)].
Qed.

Lemma stuck_job_survives_pass respond self job :
  never_terminal respond self job ->
  forall steps i job_ids results t t' job_ids' results',
    In job job_ids ->
    poll_pass respond self steps i job_ids results t
    = (t', Ok (job_ids', results')) ->
    In job job_ids'.
Proof.
  intros Hquiet.
  induction steps as [|steps IH];
    intros i job_ids results t t' job_ids' results' Hin Hpass.
  - simpl in Hpass. destruct (job_ids !! i); by inversion Hpass; subst.
  - cbn [poll_pass] in Hpass.
    destruct (job_ids !! i) as [job'|] eqn:Hjob;
      [|by inversion Hpass; subst].
    unfold bind at 1 in Hpass.
    destruct (_get_job respond self job' t) as [t1 [j| |]] eqn:Hget;
      [|discriminate..].
    unfold bind at 1 in Hpass.
    destruct (lift (getitem j (u "state")) t1) as [t2 [st| |]] eqn:Hstate;
      [|discriminate..].
    destruct (negb (bool_decide (st ∈ terminal_states))) eqn:Hterm.
    + by apply (IH _ _ _ _ _ _ _ Hin Hpass).
    + unfold bind at 1 in Hpass.
      destruct (_get_job_results respond self job' t2) as [t3 [res| |]];
        [|discriminate..].
      assert (Hne : job <> job').
      { intros <-. destruct (Hquiet t) as [Hst [j' [st' [Hj' [Hst' Hnot]]]]].
        rewrite (get_job_ok _ _ _ _ _ Hst Hj') in Hget.
        inversion Hget; subst.
        unfold getitem in Hstate. rewrite Hst' in Hstate.
        inversion Hstate; subst.
        apply negb_false_iff in Hterm. rewrite terminal_decide in Hterm.
        contradiction. }
      apply (IH _ _ _ _ _ _ _ (In_delete job job' job_ids i Hjob Hne Hin)
               Hpass).
Qed.

(** X10: as long as one job of the live list is never reported in a
    terminal state, polling does not return: however many passes are
    followed, the loop is still running or has raised. *)
Theorem polling_never_returns_with_a_stuck_job respond self job job_ids
    results wait passes t :
  In job job_ids ->
  never_terminal respond self job ->
  forall out,
    snd (poll_jobs respond self passes wait job_ids results t) <> Ok out.
Proof.
  intros Hin Hquiet out. revert job_ids results t Hin.
  induction passes as [|passes IH]; intros job_ids results t Hin;
    destruct job_ids as [|a job_ids]; try done.
  cbn [poll_jobs]. unfold bind at 1.
  destruct (poll_pass respond self (length (a :: job_ids)) 0 (a :: job_ids)
              results t) as [t1 [[l' r']| |]] eqn:Hpass; [|done..].
  unfold sleep, emit, bind at 1. cbn [fst snd].
  apply IH.
  by apply (stuck_job_survives_pass respond self job Hquiet _ _ _ _ _ _ _ _
              Hin Hpass).
Qed.

Lemma polling_never_returns_with_a_stuck_job_witness :
  In job_B [job_A; job_B] /\
  never_terminal busy_service contacts job_B /\
  forall out,
    snd (poll_jobs busy_service contacts 3 5 [job_A; job_B] [] []) <> Ok out.
Proof.
  assert (H1 : In job_B [job_A; job_B]) by (right; by left).
  assert (H2 : never_terminal busy_service contacts job_B).
  { intros t. split; [simpl; lia|].
    eexists _, _. repeat split; try reflexivity.
    vm_compute. intuition discriminate. }
  split; [exact H1|]. split; [exact H2|].
  exact (polling_never_returns_with_a_stuck_job busy_service contacts job_B
           [job_A; job_B] [] 5 3%nat [] H1 H2).
Defined.









(** *** More on the chunker *)




Lemma cost_nonneg g : 0 <= cost g.
Proof.
  unfold cost. induction g as [|r g IH]; simpl; [lia|].
  pose proof (row_cost_pos r). lia.
Qed.

Lemma cost_cons r g : cost (r :: g) = row_cost r + cost g.
Proof. reflexivity. Qed.

Lemma chunk_loop_single_chunk header max_bytes (rows : list row) :
  forall l line acc,
    output l = written header acc ->
    n l + cost (line :: rows) < max_bytes ->
    chunk_loop max_bytes (split_loop header max_bytes) l line (iter rows)
    = Yield (written header (acc ++ line :: rows)) GenReturn.
Proof.
  induction rows as [|x rows IH]; intros l line acc Hl Hn;
    cbn [chunk_loop iter]; rewrite Hl, written_snoc; cbn [n output];
    rewrite cost_cons in Hn.
  - change (cost []) with 0 in Hn.
    replace (n l + row_cost line >=? max_bytes) with false by lia.
    reflexivity.
  - pose proof (cost_nonneg (x :: rows)).
    replace (n l + row_cost line >=? max_bytes) with false by lia.
    erewrite (IH _ x (acc ++ [line]));
      [by rewrite <- app_assoc | reflexivity | simpl; lia].
Qed.

(** X14: data whose rows together cost less than [max_bytes] are yielded
    as exactly one chunk, the header followed by all the rows in order,
    and the chunk is yielded once. *)
Theorem split_csv_small_input_is_one_chunk header line rows max_bytes :
  cost (line :: rows) < max_bytes ->
  split_csv_bytes (iter (header :: line :: rows)) max_bytes
  = Yield (written header (line :: rows)) GenReturn.
Proof.
  intros Hc.
  apply (chunk_loop_single_chunk header max_bytes rows
           (mkLocals (writerow [] header) 0 0) line [] eq_refl).
  simpl. lia.
Qed.

Lemma split_csv_small_input_is_one_chunk_witness :
  cost ([u "1"; u "2"] :: [[u "3"; u "4"]]) < 104857600 /\
  split_csv_bytes (iter ([u "a"; u "b"] :: [u "1"; u "2"] :: [[u "3"; u "4"]]))
    104857600
  = Yield (written [u "a"; u "b"] ([u "1"; u "2"] :: [[u "3"; u "4"]]))
      GenReturn.
Proof.
  assert (H : cost ([u "1"; u "2"] :: [[u "3"; u "4"]]) < 104857600)
    by (vm_compute; reflexivity).
  split; [exact H|].
  exact (split_csv_small_input_is_one_chunk [u "a"; u "b"] [u "1"; u "2"]
           [[u "3"; u "4"]] 104857600 H).
Defined.

Lemma chunk_loop_source_raises header max_bytes e (rows : list row) :
  forall l line,
    gen_end (chunk_loop max_bytes (split_loop header max_bytes) l line
               (iter_raise rows e)) = Some e.
Proof.
  induction rows as [|x rows IH]; intros l line;
    cbn [chunk_loop iter_raise];
    destruct (_ >=? max_bytes); cbn [gen_end split_loop]; try reflexivity.
  - apply IH.
  - apply IH.
Qed.

Lemma chunk_loop_small_source_raises header max_bytes e (rest : list row) :
  forall l line,
    n l + cost (line :: rest) < max_bytes ->
    chunk_loop max_bytes (split_loop header max_bytes) l line
      (iter_raise rest e) = GenRaise e.
Proof.
  induction rest as [|x rest IH]; intros l line Hn;
    cbn [chunk_loop iter_raise]; cbn [n];
    rewrite cost_cons in Hn.
  - change (cost []) with 0 in Hn.
    replace (n l + row_cost line >=? max_bytes) with false by lia.
    reflexivity.
  - pose proof (cost_nonneg (x :: rest)).
    replace (n l + row_cost line >=? max_bytes) with false by lia.
    apply IH. simpl. lia.
Qed.

(** X15: an exception raised by the row iterator, at whatever row, comes
    out of the chunker unchanged: the chunker never returns normally
    from a source that fails. *)
Theorem split_csv_source_exception_propagates rows e max_bytes :
  gen_end (split_csv_bytes (iter_raise rows e) max_bytes) = Some e.
Proof.
  destruct rows as [|header [|line rows]]; try reflexivity.
  apply chunk_loop_source_raises.
Qed.

(** X16: when the row iterator fails after a header and rows that are
    together below the chunk limit of 100 MiB, the operation raises that
    exception and nothing has been sent or written: the rows read before
    the failure are not submitted. *)
Theorem failing_source_aborts_before_any_request respond file_error self
    object_name operation external_id_field wait passes header line rest e
    t :
  cost (line :: rest) < 104857600 ->
  _bulk_operation respond file_error self object_name operation
    (DataReader (iter_raise (header :: line :: rest) e))
    external_id_field wait passes t
  = (t, Raise e).
Proof.
  intros Hc. rewrite bulk_operation_on_source. cbn [source_rows].
  unfold split_csv.
  change (max_bytes_of (inject_Z 100)) with 104857600.
  cbn [split_csv_bytes iter_raise split_loop].
  rewrite chunk_loop_small_source_raises by (simpl; lia).
  reflexivity.
Qed.

Lemma failing_source_aborts_before_any_request_witness :
  cost ([u "x"] :: []) < 104857600 /\
  _bulk_operation complete_service writable contacts (u "Contact")
    (u "insert")
    (DataReader (iter_raise ([u "Name"] :: [u "x"] :: []) CsvError))
    None 5 1 []
  = ([], Raise CsvError).
Proof.
  assert (H : cost ([u "x"] :: []) < 104857600) by (vm_compute; reflexivity).
  split; [exact H|].
  exact (failing_source_aborts_before_any_request complete_service
           writable contacts (u "Contact") (u "insert") None 5 1%nat
           [u "Name"] [u "x"] [] CsvError [] H).
Defined.

(** *** The record encoder *)

Lemma dict_to_list_fits fieldnames r :
  fits fieldnames r ->
  _dict_to_list fieldnames r = inl (record_row fieldnames r).
Proof.
  intros Hfit. unfold _dict_to_list.
  replace (forallb _ (keys r)) with true; [reflexivity|].
  symmetry. apply forallb_forall. intros k Hk.
  apply bool_decide_eq_true. apply list_elem_of_In. by apply Hfit.
Qed.

Lemma dict_to_list_extra_key fieldnames r :
  ~ fits fieldnames r -> _dict_to_list fieldnames r = inr ValueError.
Proof.
  intros Hfit. unfold _dict_to_list.
  destruct (forallb _ (keys r)) eqn:Hall; [|reflexivity].
  exfalso. apply Hfit. intros k Hk.
  rewrite forallb_forall in Hall. specialize (Hall k Hk).
  apply bool_decide_eq_true in Hall. by apply list_elem_of_In.
Qed.

Lemma write_rows_fits fieldnames : forall data output,
  Forall (fits fieldnames) data ->
  write_rows fieldnames output data
  = inl (fold_left writerow (map (record_row fieldnames) data) output).
Proof.
  induction data as [|r data IH]; intros output Hall; [reflexivity|].
  inversion Hall; subst. cbn [write_rows].
  rewrite dict_to_list_fits by assumption. by apply IH.
Qed.

Lemma write_rows_extra_key fieldnames : forall data output,
  Exists (fun r => ~ fits fieldnames r) data ->
  write_rows fieldnames output data = inr ValueError.
Proof.
  induction data as [|r data IH]; intros output Hex; [by inversion Hex|].
  cbn [write_rows].
  destruct (_dict_to_list fieldnames r) as [l|e] eqn:Hr.
  - inversion Hex as [? ? Hbad|? ? Hrest]; subst.
    + by rewrite dict_to_list_extra_key in Hr.
    + by apply IH.
  - unfold _dict_to_list in Hr. destruct (forallb _ _); by inversion Hr.
Qed.

Lemma fits_own_keys (r : record) : fits (keys r) r.
Proof. by intros k Hk. Qed.

(** X17: for a list of records none of which has a key that the first
    record lacks, the encoder writes the keys of the first record as the
    header and then one row per record, in order, with the values in the
    order of the header and an empty field for each key a record does
    not have. *)
Theorem json_list_to_file_writes_header_and_rows first rest :
  Forall (fits (keys first)) rest ->
  json_list_to_file (first :: rest)
  = inl (written (keys first)
           (map (record_row (keys first)) (first :: rest))).
Proof.
  intros Hall. unfold json_list_to_file, written.
  apply write_rows_fits. constructor; [apply fits_own_keys | exact Hall].
Qed.

Lemma json_list_to_file_writes_header_and_rows_witness :
  let first := [(u "Name", JString (u "Ann")); (u "Age", JInt 41)] in
  let second := [(u "Age", JNull)] in
  Forall (fits (keys first)) [second] /\
  json_list_to_file (first :: [second])
  = inl (written (keys first)
           (map (record_row (keys first)) (first :: [second]))) /\
  written (keys first) (map (record_row (keys first)) (first :: [second]))
  = u "Name,Age" ++ [LF] ++ u "Ann,41" ++ [LF] ++ u "," ++ [LF].
Proof.
  intros first second.
  assert (H : Forall (fits (keys first)) [second]).
  { constructor; [|constructor]. unfold fits. simpl.
    intros key [<-|[]]. right. by left. }
  split; [exact H|]. split; [|reflexivity].
  exact (json_list_to_file_writes_header_and_rows first [second] H).
Defined.

(** X18: as soon as one record has a key that the first record lacks,
    the encoder raises [ValueError]; no file is returned. *)
Theorem json_list_to_file_rejects_extra_keys first rest :
  Exists (fun r => ~ fits (keys first) r) rest ->
  json_list_to_file (first :: rest) = inr ValueError.
Proof.
  intros Hex. unfold json_list_to_file.
  apply write_rows_extra_key. by apply Exists_cons_tl.
Qed.

Lemma json_list_to_file_rejects_extra_keys_witness :
  let first := [(u "Name", JString (u "Ann"))] in
  let second := [(u "Name", JString (u "Bob")); (u "Age", JInt 7)] in
  Exists (fun r => ~ fits (keys first) r) [second] /\
  json_list_to_file (first :: [second]) = inr ValueError.
Proof.
  intros first second.
  assert (H : Exists (fun r => ~ fits (keys first) r) [second]).
  { apply Exists_cons_hd. intros Hfit.
    destruct (Hfit (u "Age")) as [Heq|[]]; [right; by left|].
    vm_compute in Heq. discriminate. }
  split; [exact H|].
  exact (json_list_to_file_rejects_extra_keys first [second] H).
Defined.

(** *** Writing and reading back *)

Lemma parse_line_feed r line :
  parse_line r line
  = match feed r line with
    | inl r' => parse_process_char r' None
    | inr e => inr e
    end.
Proof.
  revert r. induction line as [|c line IH]; intros r; simpl; [reflexivity|].
  destruct (parse_process_char r (Some c)); [apply IH | reflexivity].
Qed.

Lemma feed_app r a b :
  feed r (a ++ b)
  = match feed r a with
    | inl r' => feed r' b
    | inr e => inr e
    end.
Proof.
  revert r. induction a as [|c a IH]; intros r; simpl; [reflexivity|].
  destruct (parse_process_char r (Some c)); [apply IH | reflexivity].
Qed.

Lemma readlines_from_head : forall s cur,
  cur <> [] -> exists x lines, readlines_from cur s = (rev cur ++ x) :: lines.
Proof.
  induction s as [|c s IH]; intros cur Hcur; simpl.
  - destruct cur; [done|]. exists [], []. by rewrite app_nil_r.
  - destruct (c =? LF)%N.
    + exists [c], (readlines_from [] s). reflexivity.
    + destruct (IH (c :: cur) ltac:(done)) as [x [lines Hx]].
      exists (c :: x), lines. rewrite Hx. simpl. by rewrite <- app_assoc.
Qed.

Lemma reader_from_text : forall s r0 cur r,
  feed r0 (rev cur) = inl r ->
  reader_from r0 (readlines_from cur s) = reader_text r (nonempty cur) s.
Proof.
  induction s as [|c s IH]; intros r0 cur r Hfeed.
  - simpl. destruct cur as [|c0 cur]; [simpl in *; by inversion Hfeed|].
    cbn [nonempty reader_from]. rewrite parse_line_feed, Hfeed.
    destruct (parse_process_char r None) as [r'|e]; [|reflexivity].
    destruct (is_START_RECORD (state r')); reflexivity.
  - cbn [readlines_from reader_text].
    destruct (N.eqb_spec c LF) as [->|Hc].
    + cbn [reader_from]. rewrite parse_line_feed.
      change (rev (LF :: cur)) with (rev cur ++ [LF]).
      rewrite feed_app, Hfeed. simpl feed.
      destruct (parse_process_char r (Some LF)) as [r1|e]; [|reflexivity].
      destruct (parse_process_char r1 None) as [r2|e]; [|reflexivity].
      destruct (is_START_RECORD (state r2)).
      * f_equal. by apply (IH parse_reset [] parse_reset).
      * by apply (IH r2 [] r2).
    + destruct (parse_process_char r (Some c)) as [r1|e] eqn:Hstep.
      * apply (IH r0 (c :: cur) r1).
        change (rev (c :: cur)) with (rev cur ++ [c]).
        rewrite feed_app, Hfeed. simpl. by rewrite Hstep.
      * destruct (readlines_from_head s (c :: cur) ltac:(done))
          as [x [lines Hx]].
        rewrite Hx. cbn [reader_from]. rewrite parse_line_feed.
        change (rev (c :: cur)) with (rev cur ++ [c]).
        rewrite <- app_assoc, feed_app, Hfeed. simpl. by rewrite Hstep.
Qed.

(** The reader over a buffer is the reader over its text. *)
Lemma csv_reader_text f : csv_reader f = reader_text parse_reset false f.
Proof. apply (reader_from_text f parse_reset [] parse_reset). reflexivity. Qed.

Lemma plain_char c :
  needs_quotes c = false ->
  (c =? DQUOTE)%N = false /\ (c =? COMMA)%N = false /\
  (c =? LF)%N = false /\ is_newline c = false.
Proof.
  unfold needs_quotes, is_newline. intros H.
  apply orb_false_elim in H as [H HLF].
  apply orb_false_elim in H as [H HCR].
  apply orb_false_elim in H as [HC HD].
  by rewrite HD, HC, HLF, HCR.
Qed.

Ltac below_field_limit :=
  match goal with
  | |- context [field_limit <=? ?z] =>
      replace (field_limit <=? z) with false
        by first
             [ reflexivity
             | unfold str in *; simpl in *; lia
             | unfold field_limit, str in *; simpl in *; lia ]
  end.

Lemma unquoted_run : forall x b fs m s,
  Forall (fun c => needs_quotes c = false) x ->
  Z.of_nat (length b + length x) <= field_limit ->
  reader_text (mkReader IN_FIELD b fs) m (x ++ s)
  = reader_text (mkReader IN_FIELD (rev x ++ b) fs) (m || nonempty x) s.
Proof.
  induction x as [|c x IH]; intros b fs m s Hx Hlen.
  - simpl. by rewrite orb_false_r.
  - inversion Hx as [|? ? Hc Hx']; subst.
    destruct (plain_char c Hc) as [HD [HC [HLF HN]]].
    cbn [app reader_text]. unfold parse_process_char. cbn [state].
    rewrite HN, HC. unfold parse_add_char. cbn [field state fields].
    below_field_limit.
    rewrite HLF. rewrite IH; [|assumption|simpl in *; lia].
    cbn [nonempty]. rewrite orb_true_r. simpl rev. rewrite <- app_assoc.
    by destruct x.
Qed.

Lemma quoted_run : forall x b fs m s,
  ~ In CR x ->
  Z.of_nat (length b + length x) <= field_limit ->
  reader_text (mkReader IN_QUOTED_FIELD b fs) m
    (join_append_data x ++ DQUOTE :: s)
  = reader_text (mkReader QUOTE_IN_QUOTED_FIELD (rev x ++ b) fs) true s.
Proof.
  induction x as [|c x IH]; intros b fs m s Hx Hlen.
  - reflexivity.
  - assert (Hx' : ~ In CR x) by (intros H; apply Hx; by right).
    assert (Hlen' : Z.of_nat (length (c :: b) + length x) <= field_limit)
      by (simpl in *; lia).
    simpl rev. rewrite <- app_assoc. simpl app.
    unfold join_append_data. cbn [flat_map].
    fold (join_append_data x).
    destruct (N.eqb_spec c DQUOTE) as [->|HD].
    + cbn [app reader_text]. unfold parse_process_char at 1. cbn [state].
      change (DQUOTE =? DQUOTE)%N with true. cbv iota.
      change (DQUOTE =? LF)%N with false. cbv iota.
      cbn [set_state field fields reader_text].
      unfold parse_process_char at 1. cbn [state].
      change (DQUOTE =? DQUOTE)%N with true. cbv iota.
      unfold parse_add_char. cbn [field state fields]. below_field_limit.
      cbn [set_state field fields].
      change (DQUOTE =? LF)%N with false. cbv iota.
      by apply IH.
    + cbn [app reader_text]. unfold parse_process_char at 1. cbn [state].
      replace (c =? DQUOTE)%N with false by (symmetry; by apply N.eqb_neq).
      unfold parse_add_char. cbn [field state fields]. below_field_limit.
      destruct (N.eqb_spec c LF) as [->|HLF].
      * unfold parse_process_char. cbn [state is_START_RECORD].
        by apply IH.
      * by apply IH.
Qed.

Lemma field_read f fs m s :
  good_field f ->
  reader_text (mkReader START_FIELD [] fs) m (join_append f ++ s)
  = reader_text (after_field f fs) (m || nonempty (join_append f)) s.
Proof.
  intros [HCR Hlen]. unfold join_append, after_field.
  destruct (existsb needs_quotes f) eqn:Hq.
  - cbn [app reader_text nonempty]. rewrite orb_true_r.
    unfold parse_process_char at 1. cbn [state].
    change (is_newline DQUOTE) with false.
    change (DQUOTE =? DQUOTE)%N with true. cbv iota.
    change (DQUOTE =? LF)%N with false. cbv iota.
    rewrite <- app_assoc. simpl app.
    change (set_state IN_QUOTED_FIELD (mkReader START_FIELD [] fs))
      with (mkReader IN_QUOTED_FIELD [] fs).
    rewrite quoted_run; [by rewrite app_nil_r | assumption | simpl; lia].
  - destruct f as [|c x]; [simpl; by rewrite orb_false_r|].
    assert (Hall : Forall (fun c => needs_quotes c = false) (c :: x)).
    { apply List.Forall_forall. intros c' Hc'.
      apply not_true_is_false. intros Hn.
      assert (existsb needs_quotes (c :: x) = true)
        by (apply existsb_exists; eauto).
      congruence. }
    inversion Hall as [|? ? Hc Hx]; subst.
    destruct (plain_char c Hc) as [HD [HC [HLF HN]]].
    cbn [app reader_text nonempty]. rewrite orb_true_r.
    unfold parse_process_char at 1. cbn [state].
    rewrite HN, HD, HC. unfold parse_add_char. cbn [field state fields].
    below_field_limit.
    rewrite HLF.
    change (set_state IN_FIELD (mkReader START_FIELD [c] fs))
      with (mkReader IN_FIELD [c] fs).
    rewrite unquoted_run; [reflexivity|assumption|simpl in *; lia].
Qed.

Lemma after_field_comma f fs :
  parse_process_char (after_field f fs) (Some COMMA)
  = inl (mkReader START_FIELD [] (f :: fs)).
Proof.
  unfold after_field. destruct (existsb needs_quotes f).
  - unfold parse_process_char, parse_save_field, set_state. simpl.
    by rewrite rev_involutive.
  - destruct f as [|c x]; [reflexivity|].
    unfold parse_process_char, parse_save_field, set_state.
    cbn [state field fields]. change (is_newline COMMA) with false.
    change (COMMA =? COMMA)%N with true. cbv iota.
    by rewrite rev_involutive.
Qed.

Lemma after_field_LF f fs :
  parse_process_char (after_field f fs) (Some LF)
  = inl (mkReader EAT_CRNL [] (f :: fs)).
Proof.
  unfold after_field. destruct (existsb needs_quotes f).
  - unfold parse_process_char, parse_save_field, set_state. simpl.
    by rewrite rev_involutive.
  - destruct f as [|c x]; [reflexivity|].
    unfold parse_process_char, parse_save_field, set_state.
    cbn [state field fields]. change (is_newline LF) with true. cbv iota.
    by rewrite rev_involutive.
Qed.

Lemma fields_read : forall fl f fs m s,
  Forall good_field (f :: fl) ->
  reader_text (mkReader START_FIELD [] fs) m
    (join [COMMA] (map join_append (f :: fl)) ++ LF :: s)
  = Yield (rev fs ++ f :: fl) (reader_text parse_reset false s).
Proof.
  induction fl as [|g fl IH]; intros f fs m s Hall;
    inversion Hall as [|? ? Hf Hfl]; subst.
  - cbn [map join]. rewrite field_read by assumption.
    cbn [reader_text]. rewrite after_field_LF.
    change (LF =? LF)%N with true. cbv iota.
    reflexivity.
  - change (map join_append (f :: g :: fl))
      with (join_append f :: map join_append (g :: fl)).
    rewrite (join_cons _ (join_append f)) by done.
    rewrite <- !app_assoc. rewrite field_read by assumption.
    cbn [app reader_text]. rewrite after_field_comma.
    change (COMMA =? LF)%N with false. cbv iota.
    rewrite IH by assumption. simpl rev. by rewrite <- app_assoc.
Qed.

Lemma start_record_as_start_field c s m :
  is_newline c = false ->
  reader_text parse_reset m (c :: s)
  = reader_text (mkReader START_FIELD [] []) m (c :: s).
Proof.
  intros Hc. cbn [reader_text].
  replace (parse_process_char parse_reset (Some c))
    with (parse_process_char (mkReader START_FIELD [] []) (Some c));
    [reflexivity|].
  unfold parse_process_char. simpl. by rewrite Hc.
Qed.

Lemma join_append_head f :
  f <> [] ->
  exists c rest, join_append f = c :: rest /\ is_newline c = false.
Proof.
  intros Hf. unfold join_append.
  destruct (existsb needs_quotes f) eqn:Hq; [by eexists DQUOTE, _|].
  destruct f as [|c x]; [done|]. exists c, x. split; [reflexivity|].
  simpl in Hq. apply orb_false_elim in Hq as [Hc _].
  by destruct (plain_char c Hc) as [_ [_ [_ HN]]].
Qed.

Lemma start_record_text text c rest m :
  text = c :: rest -> is_newline c = false ->
  reader_text parse_reset m text
  = reader_text (mkReader START_FIELD [] []) m text.
Proof. intros -> Hc. by apply start_record_as_start_field. Qed.

Lemma record_read r m s :
  Forall good_field r ->
  reader_text parse_reset m (record_body r ++ LF :: s)
  = Yield r (reader_text parse_reset false s).
Proof.
  intros Hall. destruct r as [|f fl]; [reflexivity|].
  destruct f as [|c x].
  - destruct fl as [|g fl]; [reflexivity|].
    change (record_body ([] :: g :: fl))
      with (join [COMMA] (map join_append ([] :: g :: fl))).
    rewrite (start_record_text
               (join [COMMA] (map join_append ([] :: g :: fl)) ++ LF :: s)
               COMMA
               (join [COMMA] (map join_append (g :: fl)) ++ LF :: s) m
               eq_refl eq_refl).
    by rewrite fields_read.
  - change (record_body ((c :: x) :: fl))
      with (join [COMMA] (map join_append ((c :: x) :: fl))).
    destruct (join_append_head (c :: x) ltac:(done))
      as [c0 [rest [Hja Hc0]]].
    assert (Hhead : exists tail,
               join [COMMA] (map join_append ((c :: x) :: fl)) ++ LF :: s
               = c0 :: tail).
    { cbn [map]. rewrite Hja. destruct (map join_append fl); simpl; eauto. }
    destruct Hhead as [tail Htail].
    rewrite (start_record_text _ c0 tail m Htail Hc0).
    by rewrite fields_read.
Qed.

Lemma translate_newlines_terminator s :
  ~ In CR s -> translate_newlines (s ++ [CR; LF]) = s ++ [LF].
Proof.
  induction s as [|c s IH]; intros Hs; [reflexivity|].
  cbn [app translate_newlines].
  destruct (N.eqb_spec c CR) as [->|Hc]; [exfalso; apply Hs; by left|].
  rewrite IH; [reflexivity|]. intros H. apply Hs. by right.
Qed.

Lemma join_append_no_CR f : ~ In CR f -> ~ In CR (join_append f).
Proof.
  intros Hf. unfold join_append.
  assert (Hdata : ~ In CR (join_append_data f)).
  { unfold join_append_data. intros Hin.
    apply in_flat_map in Hin as [c [Hc Hin]].
    destruct (c =? DQUOTE)%N; simpl in Hin;
      intuition (subst; try discriminate; auto). }
  destruct (existsb needs_quotes f); [|exact Hf].
  intros [H|H]; [discriminate|].
  apply in_app_or in H as [H|[H|[]]]; [auto | discriminate].
Qed.

Lemma join_no_CR (l : list str) :
  Forall (fun x => ~ In CR x) l -> ~ In CR (join [COMMA] l).
Proof.
  induction l as [|x l IH]; intros Hall; [by intros []|].
  inversion Hall as [|? ? Hx Hl]; subst.
  destruct l as [|y l]; [exact Hx|].
  rewrite (join_cons _ x (y :: l)) by done.
  intros H. apply in_app_or in H as [H|H]; [auto|].
  apply in_app_or in H as [[H|[]]|H]; [discriminate|].
  by apply IH.
Qed.

Lemma record_body_no_CR r : Forall good_field r -> ~ In CR (record_body r).
Proof.
  intros Hall.
  assert (Hjoin : ~ In CR (join [COMMA] (map join_append r))).
  { apply join_no_CR. apply List.Forall_forall. intros x Hx.
    apply List.in_map_iff in Hx as [f [<- Hf]].
    apply join_append_no_CR.
    rewrite List.Forall_forall in Hall. by destruct (Hall f Hf). }
  destruct r as [|[|c x] [|g fl]]; try exact Hjoin.
  simpl. intuition discriminate.
Qed.

Lemma writerow_good output r :
  Forall good_field r ->
  writerow output r = output ++ record_body r ++ [LF].
Proof.
  intros Hall. unfold writerow, StringIO_write.
  change (csv_record r) with (record_body r ++ [CR; LF]).
  by rewrite translate_newlines_terminator by by apply record_body_no_CR.
Qed.

Lemma written_rows_text (rows : list row) : forall output,
  Forall (Forall good_field) rows ->
  fold_left writerow rows output
  = output ++ concat (map (fun r => record_body r ++ [LF]) rows).
Proof.
  induction rows as [|r rows IH]; intros output Hall; simpl.
  - by rewrite app_nil_r.
  - inversion Hall; subst. rewrite IH by assumption.
    rewrite writerow_good by assumption. by rewrite <- !app_assoc.
Qed.

Lemma reader_text_records (rows : list row) :
  Forall (Forall good_field) rows ->
  reader_text parse_reset false
    (concat (map (fun r => record_body r ++ [LF]) rows))
  = iter rows.
Proof.
  induction rows as [|r rows IH]; intros Hall; [reflexivity|].
  inversion Hall; subst. cbn [map concat iter].
  rewrite <- app_assoc. cbn [app].
  rewrite record_read by assumption. by rewrite IH.
Qed.

(** X19: rows whose fields have no carriage return and are within the
    reader's field limit are read back unchanged, in order, from the
    buffer they were written to: what [csv.reader] returns for what
    [csv.writer] wrote into a [StringIO(newline=None)] is the rows
    themselves, whatever commas, quotes and line feeds the fields hold. *)
Theorem csv_round_trip (rows : list row) :
  Forall (Forall good_field) rows ->
  csv_reader (fold_left writerow rows []) = iter rows.
Proof.
  intros Hall. rewrite csv_reader_text, written_rows_text by assumption.
  by apply reader_text_records.
Qed.

Lemma source_rows_of_list first rest :
  encodable first rest ->
  json_list_to_file (first :: rest)
  = inl (written (keys first) (map (record_row (keys first)) (first :: rest)))
  /\
  source_rows (DataList (first :: rest))
  = inl (iter (keys first :: map (record_row (keys first)) (first :: rest))).
Proof.
  intros [Hfit [Hkeys Hvals]].
  assert (Hfile : json_list_to_file (first :: rest)
                  = inl (written (keys first)
                           (map (record_row (keys first)) (first :: rest)))).
  { unfold json_list_to_file, written. apply write_rows_fits.
    constructor; [apply fits_own_keys | exact Hfit]. }
  split; [exact Hfile|].
  unfold source_rows. rewrite Hfile. f_equal.
  change (written (keys first) (map (record_row (keys first)) (first :: rest)))
    with (fold_left writerow
            (keys first :: map (record_row (keys first)) (first :: rest)) []).
  assert (Hall : Forall (Forall good_field)
                   (keys first
                    :: map (record_row (keys first)) (first :: rest))).
  { constructor; [exact Hkeys|].
    apply List.Forall_forall. intros x Hx.
    apply List.in_map_iff in Hx as [r [<- Hr]].
    rewrite List.Forall_forall in Hvals. by apply Hvals. }
  rewrite csv_reader_text, written_rows_text by assumption.
  by apply reader_text_records.
Qed.

(** X20: for a list of records that can be encoded, the rows the operation
    reads back from the file it has just written are the keys of the
    first record followed by one row per record, in order: writing the
    file and reading it again loses nothing. *)
Theorem list_data_is_read_back first rest :
  encodable first rest ->
  source_rows (DataList (first :: rest))
  = inl (iter (keys first :: map (record_row (keys first)) (first :: rest))).
Proof. intros H. by destruct (source_rows_of_list first rest H). Qed.

(** X21: a list of records that can be encoded and whose rows are together
    below the chunk limit of 100 MiB is submitted as one batch, and the
    batch is, character for character, the file the encoder wrote. *)
Theorem small_list_is_one_batch first rest file :
  encodable first rest ->
  cost (map (record_row (keys first)) (first :: rest)) < 104857600 ->
  json_list_to_file (first :: rest) = inl file ->
  chunks_of (DataList (first :: rest)) = [file].
Proof.
  intros Henc Hcost Hfile.
  destruct (source_rows_of_list first rest Henc) as [Hfile' Hrows].
  rewrite Hfile in Hfile'. inversion Hfile'; subst.
  unfold chunks_of. rewrite Hrows. unfold split_csv.
  change (max_bytes_of (inject_Z 100)) with 104857600.
  cbn [map] in *. cbn [split_csv_bytes iter split_loop].
  rewrite (chunk_loop_single_chunk (keys first) 104857600 _
             (mkLocals (writerow [] (keys first)) 0 0) _ [] eq_refl)
    by (cbn [n]; lia).
  reflexivity.
Qed.

Lemma good_examples :
  let first := [(u "Name", JString (u "Ann, Lee")); (u "Age", JInt 41)] in
  let second := [(u "Age", JNull)] in
  encodable first [second].
Proof.
  intros first second. unfold encodable.
  assert (Hgood : forall f : str,
             forallb (fun c => negb (c =? CR)%N) f = true ->
             (length f <=? 100)%nat = true -> good_field f).
  { intros f Hcr Hlen. split.
    - intros Hin. rewrite forallb_forall in Hcr.
      specialize (Hcr _ Hin). discriminate.
    - apply Nat.leb_le in Hlen. unfold field_limit. lia. }
  split; [|split].
  - constructor; [|constructor]. unfold fits. simpl.
    intros key [<-|[]]. right. by left.
  - repeat constructor; apply Hgood; reflexivity.
  - repeat constructor; apply Hgood; reflexivity.
Qed.

Lemma csv_round_trip_witness :
  let rows := [[u "Name"; u "Note"];
               [u "Ann, Lee"; u "a" ++ [LF; DQUOTE] ++ u "b"]; []; [[]]] in
  Forall (Forall good_field) rows /\
  csv_reader (fold_left writerow rows []) = iter rows.
Proof.
  intros rows.
  assert (Hgood : forall f : str,
             forallb (fun c => negb (c =? CR)%N) f = true ->
             (length f <=? 100)%nat = true -> good_field f).
  { intros f Hcr Hlen. split.
    - intros Hin. rewrite forallb_forall in Hcr.
      specialize (Hcr _ Hin). discriminate.
    - apply Nat.leb_le in Hlen. unfold field_limit. lia. }
  assert (H : Forall (Forall good_field) rows)
    by (repeat constructor; apply Hgood; reflexivity).
  split; [exact H|]. exact (csv_round_trip rows H).
Defined.

Lemma list_data_is_read_back_witness :
  let first := [(u "Name", JString (u "Ann, Lee")); (u "Age", JInt 41)] in
  let second := [(u "Age", JNull)] in
  encodable first [second] /\
  source_rows (DataList (first :: [second]))
  = inl (iter (keys first
               :: map (record_row (keys first)) (first :: [second]))).
Proof.
  intros first second. split; [exact good_examples|].
  exact (list_data_is_read_back first [second] good_examples).
Defined.

Lemma small_list_is_one_batch_witness :
  let first := [(u "Name", JString (u "Ann, Lee")); (u "Age", JInt 41)] in
  let second := [(u "Age", JNull)] in
  let file := u "Name,Age" ++ [LF; DQUOTE] ++ u "Ann, Lee" ++ [DQUOTE]
              ++ u ",41" ++ [LF] ++ u "," ++ [LF] in
  encodable first [second] /\
  cost (map (record_row (keys first)) (first :: [second])) < 104857600 /\
  json_list_to_file (first :: [second]) = inl file /\
  chunks_of (DataList (first :: [second])) = [file].
Proof.
  intros first second file.
  assert (H2 : cost (map (record_row (keys first)) (first :: [second]))
               < 104857600) by (vm_compute; reflexivity).
  assert (H3 : json_list_to_file (first :: [second]) = inl file)
    by reflexivity.
  split; [exact good_examples|]. split; [exact H2|]. split; [exact H3|].
  exact (small_list_is_one_batch first [second] file good_examples H2 H3).
Defined.

(** *** date_to_iso8601 *)

Lemma replace_char_app old new a b :
  replace_char old new (a ++ b)
  = replace_char old new a ++ replace_char old new b.
Proof. unfold replace_char. apply flat_map_app. Qed.

Lemma replace_char_absent old new s :
  ~ In old s -> replace_char old new s = s.
Proof.
  induction s as [|c s IH]; intros Hs; [reflexivity|].
  unfold replace_char in *. cbn [flat_map].
  destruct (N.eqb_spec c old) as [->|Hc]; [exfalso; apply Hs; by left|].
  rewrite IH; [reflexivity|]. intros H. apply Hs. by right.
Qed.

Lemma replace_char_removes old new s :
  ~ In old new -> ~ In old (replace_char old new s).
Proof.
  intros Hnew Hin. unfold replace_char in Hin.
  apply in_flat_map in Hin as [c [_ Hin]].
  destruct (N.eqb_spec c old) as [Heq|Hc]; [by apply Hnew|].
  destruct Hin as [Heq|[]]. by apply Hc.
Qed.

Lemma replace_char_keeps_out x old new s :
  ~ In x new -> ~ In x s -> ~ In x (replace_char old new s).
Proof.
  intros Hnew Hs Hin. unfold replace_char in Hin.
  apply in_flat_map in Hin as [c [Hc Hin]].
  destruct (c =? old)%N; [by apply Hnew|].
  destruct Hin as [Heq|[]]. subst. by apply Hs.
Qed.

(** X22: whatever the date object's [strftime] returns, the result holds
    neither a colon nor a plus sign: both are always percent-encoded. *)
Theorem date_to_iso8601_has_no_colon_or_plus strftime :
  plain (date_to_iso8601 strftime).
Proof.
  unfold date_to_iso8601, plain. split.
  - apply replace_char_keeps_out.
    + vm_compute. intuition discriminate.
    + apply replace_char_removes. vm_compute. intuition discriminate.
  - apply replace_char_removes. vm_compute. intuition discriminate.
Qed.

(** X23: for a date whose [strftime] gives a date-time text with the two
    colons of the time and a UTC offset of a sign and four digits (more
    may follow), the result is the date-time with each colon as %3A,
    then the sign (a plus sign as %2B), the two hour digits, %3A and the
    two minute digits; what follows the minutes of the offset is
    dropped. *)
Theorem date_to_iso8601_of_aware_date
    strftime day h m s sign h1 h2 m1 m2 more :
  strftime (u "%Y-%m-%dT%H:%M:%S")
  = day ++ u "T" ++ h ++ u ":" ++ m ++ u ":" ++ s ->
  strftime (u "%z") = sign :: h1 :: h2 :: m1 :: m2 :: more ->
  plain day -> plain h -> plain m -> plain s -> plain [h1; h2; m1; m2] ->
  sign <> COLON ->
  date_to_iso8601 strftime
  = day ++ u "T" ++ h ++ u "%3A" ++ m ++ u "%3A" ++ s
    ++ (if (sign =? PLUS)%N then u "%2B" else [sign])
    ++ [h1; h2] ++ u "%3A" ++ [m1; m2].
Proof.
  intros Hdt Hz [Hd1 Hd2] [Hh1 Hh2] [Hm1 Hm2] [Hs1 Hs2] [Ho1 Ho2] Hsign.
  unfold date_to_iso8601. rewrite Hdt, Hz.
  change (py_slice 0 1 (sign :: h1 :: h2 :: m1 :: m2 :: more)) with [sign].
  change (py_slice 1 3 (sign :: h1 :: h2 :: m1 :: m2 :: more)) with [h1; h2].
  change (py_slice 3 5 (sign :: h1 :: h2 :: m1 :: m2 :: more)) with [m1; m2].
  assert (Hh12 : plain [h1; h2])
    by (split; intros Hin; [apply Ho1|apply Ho2]; simpl in *; tauto).
  assert (Hm12 : plain [m1; m2])
    by (split; intros Hin; [apply Ho1|apply Ho2]; simpl in *; tauto).
  destruct Hh12 as [Ha1 Ha2]. destruct Hm12 as [Hb1 Hb2].
  assert (HT : plain (u "T")) by (split; vm_compute; intuition discriminate).
  destruct HT as [HT1 HT2].
  rewrite !replace_char_app.
  rewrite (replace_char_absent COLON (u "%3A") day Hd1),
    (replace_char_absent COLON (u "%3A") (u "T") HT1),
    (replace_char_absent COLON (u "%3A") h Hh1),
    (replace_char_absent COLON (u "%3A") m Hm1),
    (replace_char_absent COLON (u "%3A") s Hs1),
    (replace_char_absent COLON (u "%3A") [h1; h2] Ha1),
    (replace_char_absent COLON (u "%3A") [m1; m2] Hb1).
  rewrite (replace_char_absent COLON (u "%3A") [sign])
    by (simpl; intuition congruence).
  change (replace_char COLON (u "%3A") (u ":")) with (u "%3A").
  rewrite (replace_char_absent PLUS (u "%2B") day Hd2),
    (replace_char_absent PLUS (u "%2B") (u "T") HT2),
    (replace_char_absent PLUS (u "%2B") h Hh2),
    (replace_char_absent PLUS (u "%2B") m Hm2),
    (replace_char_absent PLUS (u "%2B") s Hs2),
    (replace_char_absent PLUS (u "%2B") [h1; h2] Ha2),
    (replace_char_absent PLUS (u "%2B") [m1; m2] Hb2).
  change (replace_char PLUS (u "%2B") (u "%3A")) with (u "%3A").
  assert (Hsg : replace_char PLUS (u "%2B") [sign]
                = if (sign =? PLUS)%N then u "%2B" else [sign]).
  { unfold replace_char. simpl. destruct (sign =? PLUS)%N; reflexivity. }
  rewrite Hsg. rewrite <- !app_assoc. reflexivity.
Qed.

Lemma date_to_iso8601_of_aware_date_witness :
  leap_day_strftime (u "%Y-%m-%dT%H:%M:%S")
  = u "2020-02-29" ++ u "T" ++ u "13" ++ u ":" ++ u "05" ++ u ":" ++ u "09" /\
  leap_day_strftime (u "%z") = 43%N :: 48%N :: 53%N :: 51%N :: 48%N :: [] /\
  date_to_iso8601 leap_day_strftime
  = u "2020-02-29T13%3A05%3A09%2B05%3A30".
Proof.
  assert (H1 : leap_day_strftime (u "%Y-%m-%dT%H:%M:%S")
               = u "2020-02-29" ++ u "T" ++ u "13" ++ u ":" ++ u "05"
                 ++ u ":" ++ u "09") by reflexivity.
  assert (H2 : leap_day_strftime (u "%z")
               = 43%N :: 48%N :: 53%N :: 51%N :: 48%N :: []) by reflexivity.
  split; [exact H1|]. split; [exact H2|].
  assert (Hp : forall x : str,
             forallb (fun c => negb ((c =? COLON) || (c =? PLUS))%N) x = true ->
             plain x).
  { intros x Hx. rewrite forallb_forall in Hx.
    split; intros Hin; specialize (Hx _ Hin); discriminate. }
  exact (date_to_iso8601_of_aware_date leap_day_strftime
           (u "2020-02-29") (u "13") (u "05") (u "09")
           43%N 48%N 53%N 51%N 48%N [] H1 H2
           (Hp (u "2020-02-29") eq_refl) (Hp (u "13") eq_refl)
           (Hp (u "05") eq_refl) (Hp (u "09") eq_refl)
           (Hp [48%N; 53%N; 51%N; 48%N] eq_refl) ltac:(discriminate)).
Defined.

(** X24: for a date without a time zone, whose [strftime] gives the empty
    text for the offset, the slices of the offset are empty and the
    result is the encoded date-time followed by a lone %3A: the colon
    that was to separate the hours and minutes of the offset. *)
Theorem date_to_iso8601_of_naive_date strftime :
  strftime (u "%z") = [] ->
  date_to_iso8601 strftime
  = replace_char PLUS (u "%2B")
      (replace_char COLON (u "%3A") (strftime (u "%Y-%m-%dT%H:%M:%S")))
    ++ u "%3A".
Proof.
  intros Hz. unfold date_to_iso8601. rewrite Hz.
  change (py_slice 0 1 []) with (@nil N).
  change (py_slice 1 3 []) with (@nil N).
  change (py_slice 3 5 []) with (@nil N).
  rewrite !app_nil_r. simpl app. rewrite !replace_char_app.
  reflexivity.
Qed.

Lemma date_to_iso8601_of_naive_date_witness :
  naive_strftime (u "%z") = [] /\
  date_to_iso8601 naive_strftime = u "2020-02-29T13%3A05%3A09" ++ u "%3A".
Proof.
  assert (H : naive_strftime (u "%z") = []) by reflexivity.
  split; [exact H|].
  exact (date_to_iso8601_of_naive_date naive_strftime H).
Defined.

(** *** More on the merger and the facade *)

(** The run of the merger, by the first fetch that fails. *)
Lemma get_job_results_run respond self job_id t :
  let q1 := results_request self job_id (u "/successfulResults/") in
  let q2 := results_request self job_id (u "/failedResults/") in
  let q3 := results_request self job_id (u "/unprocessedrecords/") in
  let e1 := Request q1 (respond t q1) in
  let e2 := Request q2 (respond (t ++ [e1]) q2) in
  let e3 := Request q3 (respond (t ++ [e1] ++ [e2]) q3) in
  let run := _get_job_results respond self job_id t in
  match fetch_error e1, fetch_error e2, fetch_error e3 with
  | Some e, _, _ => run = (t ++ [e1], Raise e)
  | None, Some e, _ => run = (t ++ [e1; e2], Raise e)
  | None, None, Some e => run = (t ++ [e1; e2; e3], Raise e)
  | None, None, None =>
      fst run = t ++ [e1; e2; e3] /\
      ((exists merged, snd run = Ok merged) \/ snd run = Raise IndexError)
  end.
Proof.
  intros q1 q2 q3 e1 e2 e3 run. subst run.
  unfold _get_job_results, bind, call_salesforce, content_decode.
  fold (results_request self job_id (u "/successfulResults/")).
  fold (results_request self job_id (u "/failedResults/")).
  fold (results_request self job_id (u "/unprocessedrecords/")).
  fold q1 q2 q3. fold e1.
  unfold fetch_error at 1. unfold e1 at 1.
  destruct (status_code (respond t q1) >=? 300); [reflexivity|].
  destruct (content_utf8 (respond t q1)) as [s|]; cbn [ret raise];
    [|reflexivity].
  fold e2. unfold fetch_error at 1. unfold e2 at 1.
  destruct (status_code (respond (t ++ [e1]) q2) >=? 300);
    [by rewrite <- app_assoc|].
  destruct (content_utf8 (respond (t ++ [e1]) q2)) as [f|]; cbn [ret raise];
    [|by rewrite <- app_assoc].
  rewrite <- !app_assoc. fold e3.
  unfold fetch_error. unfold e3 at 1.
  destruct (status_code (respond (t ++ [e1] ++ [e2]) q3) >=? 300);
    [reflexivity|].
  destruct (content_utf8 (respond (t ++ [e1] ++ [e2]) q3)) as [un|];
    cbn [ret raise]; [|reflexivity].
  unfold lift, combine_results.
  destruct (splitlines s); cbn [fst snd ret raise];
    (split; [reflexivity|]); [by right | left; by eexists].
Qed.

(** X25: the merger sends the fetches of the success, failed and
    unprocessed results, in this order, and stops at the first one that
    is refused (status of 300 or more) or whose body cannot be decoded:
    that exchange is the last one, and its error is what is raised.  When
    none fails, all three are sent, and the merger returns a body, or
    raises the [IndexError] of an empty success body. *)
Theorem get_job_results_sends_the_three_fetches_in_order
    respond self job_id t :
  let exs := results_exchanges respond self job_id t in
  let run := _get_job_results respond self job_id t in
  map exchange_of exs
  = map (fun suffix => Some (GET, bulk_url self ++ py_str job_id ++ suffix))
      [u "/successfulResults/"; u "/failedResults/";
       u "/unprocessedrecords/"] /\
  (forall k ev e,
     exs !! k = Some ev -> fetch_error ev = Some e ->
     Forall (fun ev' => fetch_error ev' = None) (take k exs) ->
     run = (t ++ take (S k) exs, Raise e)) /\
  (Forall (fun ev => fetch_error ev = None) exs ->
   fst run = t ++ exs /\
   ((exists merged, snd run = Ok merged) \/ snd run = Raise IndexError)).
Proof.
  intros exs run. split; [reflexivity|].
  pose proof (get_job_results_run respond self job_id t) as Hrun.
  cbv zeta in Hrun. fold run in Hrun.
  subst exs. unfold results_exchanges. cbv zeta.
  set (q1 := results_request self job_id (u "/successfulResults/")) in *.
  set (q2 := results_request self job_id (u "/failedResults/")) in *.
  set (q3 := results_request self job_id (u "/unprocessedrecords/")) in *.
  set (e1 := Request q1 (respond t q1)) in *.
  set (e2 := Request q2 (respond (t ++ [e1]) q2)) in *.
  set (e3 := Request q3 (respond (t ++ [e1] ++ [e2]) q3)) in *.
  split.
  - intros k ev e Hk Hev Hall.
    destruct k as [|[|[|k]]]; simpl in Hk; [| | |discriminate];
      injection Hk as <-; cbn [take] in Hall |- *.
    + by rewrite Hev in Hrun.
    + inversion Hall as [|? ? H1 _]; subst.
      by rewrite H1, Hev in Hrun.
    + inversion Hall as [|? ? H1 Hall']; subst.
      inversion Hall' as [|? ? H2 _]; subst.
      by rewrite H1, H2, Hev in Hrun.
  - intros Hall.
    inversion Hall as [|? ? H1 Hall1]; subst.
    inversion Hall1 as [|? ? H2 Hall2]; subst.
    inversion Hall2 as [|? ? H3 _]; subst.
    by rewrite H1, H2, H3 in Hrun.
Qed.

Lemma get_job_results_sends_the_three_fetches_in_order_witness :
  let q := results_request contacts job_A (u "/successfulResults/") in
  let r := refusing_service [] q in
  results_exchanges refusing_service contacts job_A [] !! 0%nat
  = Some (Request q r) /\
  fetch_error (Request q r) = Some (exception_handler r []) /\
  _get_job_results refusing_service contacts job_A []
  = ([Request q r], Raise (exception_handler r [])).
Proof.
  intros q r.
  destruct (get_job_results_sends_the_three_fetches_in_order
              refusing_service contacts job_A []) as [_ [Hstop _]].
  split; [reflexivity|]. split; [reflexivity|].
  apply (Hstop 0%nat (Request q r) (exception_handler r []));
    [reflexivity | reflexivity | constructor].
Defined.


(** Witnesses of the properties proved with the claims. *)

Lemma split_csv_bytes_repeats_last_chunk_witness :
  row_cost [u "cd"] >= 6 /\
  exists pre chunk,
    yielded (split_csv_bytes (iter ([u "h"] :: [[u "ab"]] ++ [[u "cd"]])) 6)
    = pre ++ [chunk; chunk].
Proof.
  assert (H : row_cost [u "cd"] >= 6) by (vm_compute; discriminate).
  split; [exact H|].
  exact (split_csv_bytes_repeats_last_chunk [u "h"] [[u "ab"]] [u "cd"] 6 H).
Defined.

Lemma first_chunk_keeps_the_row_that_crosses_the_limit_witness :
  row_cost [u "ab"] < 10 /\
  10 <= row_cost [u "ab"] + row_cost [u "cd"] /\
  exists batches,
    split_csv_bytes (iter ([u "h"] :: [u "ab"] :: [u "cd"] :: [[u "ef"]])) 10
    = Yield (written [u "h"] [[u "ab"]; [u "cd"]]) batches.
Proof.
  assert (H1 : row_cost [u "ab"] < 10) by (vm_compute; reflexivity).
  assert (H2 : 10 <= row_cost [u "ab"] + row_cost [u "cd"])
    by (vm_compute; discriminate).
  split; [exact H1|]. split; [exact H2|].
  exact (first_chunk_keeps_the_row_that_crosses_the_limit
           [u "h"] [u "ab"] [u "cd"] [[u "ef"]] 10 H1 H2).
Defined.

Lemma empty_partitions_contribute_nothing_witness :
  let s := u "h" ++ [LF] ++ u "r1" in
  splitlines s = u "h" :: [u "r1"] /\
  (length (splitlines (u "h")) <= 1)%nat /\
  (length (splitlines []) <= 1)%nat /\
  combine_results s (u "h") [] = inl (join [LF] (u "h" :: [u "r1"])).
Proof.
  intros s.
  assert (H1 : splitlines s = u "h" :: [u "r1"]) by reflexivity.
  assert (H2 : (length (splitlines (u "h")) <= 1)%nat) by (simpl; lia).
  assert (H3 : (length (splitlines []) <= 1)%nat) by (simpl; lia).
  split; [exact H1|]. split; [exact H2|]. split; [exact H3|].
  exact (empty_partitions_contribute_nothing s (u "h") [] (u "h") [u "r1"]
           H1 H2 H3).
Defined.

Lemma create_job_failure_stops_before_upload_witness :
  let chunk := u "Name" ++ [LF] ++ u "x" ++ [LF] in
  let w := WriteFile (u "batch.csv") chunk in
  let q := create_request contacts insert_payload in
  split_csv (iter [[u "Name"]; [u "x"]]) (inject_Z 100)
  = Yield chunk GenReturn /\
  writable [] (u "batch.csv") chunk = None /\
  status_code (refusing_service [w] q) >= 300 /\
  _bulk_operation refusing_service writable contacts (u "Contact")
    (u "insert") one_row_source None 5 1 []
  = ([w; Request q (refusing_service [w] q)],
     Raise (exception_handler (refusing_service [w] q) [])).
Proof.
  intros chunk w q.
  assert (H1 : split_csv (iter [[u "Name"]; [u "x"]]) (inject_Z 100)
               = Yield chunk GenReturn) by reflexivity.
  assert (H2 : status_code (refusing_service [w] q) >= 300)
    by (vm_compute; discriminate).
  split; [exact H1|]. split; [reflexivity|]. split; [exact H2|].
  exact (create_job_failure_stops_before_upload refusing_service writable
           contacts (u "Contact") (u "insert") (iter [[u "Name"]; [u "x"]])
           None 5 1%nat chunk GenReturn H1 eq_refl H2).
Defined.
